(** * BoostBond: the donation ledger of [src/js/main.js]

    A shallow embedding of the donation tracker of the page script
    ([SafeStorage], the [donations] and [stats] fields of [AppState],
    [DonationTracker] and the global entry points [window.addDonation]
    and [window.resetStats]), followed by the properties of the ledger
    and of its derived statistics.

    Conventions of the embedding.
    - A JavaScript number is an IEEE 754 binary64 value, here a
      [spec_float] used with precision 53 and maximal exponent 1024; [+]
      is [SFadd] at these parameters.
    - A JavaScript string is a [string], each [ascii] being one code unit
      below 256.
    - The code runs against a browser: a clock ([Date]), [localStorage],
      the [.stat-number] elements of the document and the notifications
      put on the page.  They are the fields of a [World], and a function of
      the script is a state transformer on worlds which either completes
      normally or throws.  Every [new Date()] and [Date.now()] is a
      reading of the clock of its own; an access to [localStorage] may
      throw, the calls on the document do not.
    - The theme and the profile pictures, which the tracker does not
      touch, are left out. *)

From Stdlib Require Import ZArith String Ascii Lia.
From Stdlib Require Import SpecFloat DecimalString.
From stdpp Require Import base option list sorting strings gmap.

Local Open Scope string_scope.
Local Open Scope list_scope.
Local Open Scope Z_scope.

(** ** Numbers *)

Module Number.

Definition number : Type := spec_float.

Definition prec : Z := 53.
Definition emax : Z := 1024.

Definition NaN : number := S754_nan.
Definition zero : number := S754_zero false.

(** [x + y] on two numbers. *)
Definition add (x y : number) : number := SFadd prec emax x y.

(** The number nearest to [m * 10 ^ e10] (ties to even), with the sign
    [neg]; [m] is not negative.  A non-negative power of ten is
    multiplied in and the integer rounded; a negative one is divided
    out, the remainder deciding the rounding.  The decimal is rounded as
    it stands, however many digits it has. *)
Definition of_decimal (neg : bool) (m e10 : Z) : number :=
  match m with
  | Zpos p =>
      if 0 <=? e10
      then binary_round prec emax neg (p * Z.to_pos (10 ^ e10))%positive 0
      else
        let '(q, e, l) := SFdiv_core_binary prec emax m 0 (10 ^ (- e10)) 0 in
        binary_round_aux prec emax neg q e l
  | _ => S754_zero neg
  end.

Definition of_Z (z : Z) : number := of_decimal (z <? 0) (Z.abs z) 0.

End Number.

Export Number.

(** ** Values handed to the script, and [parseFloat] *)

Inductive JsValue : Type :=
  | JsUndefined
  | JsNull
  | JsBoolean (b : bool)
  | JsNumber (n : number)
  | JsString (s : string).

Module ParseFloat.

Definition code (c : ascii) : N := N_of_ascii c.

Definition is_digit (c : ascii) : bool :=
  ((48 <=? code c) && (code c <=? 57))%N.

Definition digit_value (c : ascii) : Z := Z.of_N (code c) - 48.

(** White space and line terminators among the code units below 256:
    TAB, LF, VT, FF, CR, SP and NBSP. *)
Definition is_white_space (c : ascii) : bool :=
  bool_decide (code c ∈ [9; 10; 11; 12; 13; 32; 160]%N).

Fixpoint trim_start (s : string) : string :=
  match s with
  | String c s' => if is_white_space c then trim_start s' else s
  | EmptyString => s
  end.

(** The decimal digits at the front of [s]: how many there are, the
    value of [acc] followed by them, and what follows them. *)
Fixpoint scan_digits (s : string) (count acc : Z) : Z * Z * string :=
  match s with
  | String c s' =>
      if is_digit c
      then scan_digits s' (count + 1) (10 * acc + digit_value c)
      else (count, acc, s)
  | EmptyString => (count, acc, s)
  end.

(** The value of the exponent part at the front of [s]; [0] when [s]
    does not start with one (an [e] with no digit after its optional
    sign is not part of the literal). *)
Definition scan_exponent (s : string) : Z :=
  match s with
  | String c s' =>
      if bool_decide (c = "e"%char ∨ c = "E"%char) then
        let '(neg, s'') :=
          match s' with
          | String "+"%char r => (false, r)
          | String "-"%char r => (true, r)
          | _ => (false, s')
          end in
        let '(n, v, _) := scan_digits s'' 0 0 in
        if n =? 0 then 0 else if neg : bool then - v else v
      else 0
  | EmptyString => 0
  end.

(** The longest prefix of [s] that is an unsigned decimal literal
    ([Infinity], [ddd], [ddd.ddd], [.ddd], each of the last three with
    an optional exponent), as a number of sign [neg]; [NaN] when no
    prefix is one. *)
Definition unsigned_literal (neg : bool) (s : string) : number :=
  if String.prefix "Infinity" s then S754_infinity neg
  else
    let '(n1, v1, r1) := scan_digits s 0 0 in
    match r1 with
    | String "."%char r2 =>
        let '(n2, v2, r3) := scan_digits r2 0 v1 in
        if (n1 =? 0) && (n2 =? 0) then NaN
        else of_decimal neg v2 (scan_exponent r3 - n2)
    | _ =>
        if n1 =? 0 then NaN else of_decimal neg v1 (scan_exponent r1)
    end.

Definition of_string (s : string) : number :=
  match trim_start s with
  | String "+"%char r => unsigned_literal false r
  | String "-"%char r => unsigned_literal true r
  | t => unsigned_literal false t
  end.

End ParseFloat.

(** [parseFloat(v)] reads a number off the front of [String(v)].  The
    text of a number reads back as that number, [-0] excepted, whose text
    is ["0"]; the texts of [undefined], [null], [true] and [false] start
    with no literal. *)
Definition parseFloat (v : JsValue) : number :=
  match v with
  | JsString s => ParseFloat.of_string s
  | JsNumber (S754_zero _) => zero
  | JsNumber n => n
  | JsUndefined | JsNull | JsBoolean _ => NaN
  end.

(** [s || dflt] for a text field that is a string or is missing: the
    empty string is falsy. *)
Definition or_default (s : option string) (dflt : string) : string :=
  match s with
  | Some (String c r) => String c r
  | Some EmptyString | None => dflt
  end.

(** ** The ledger *)

(** What [new Date()] shows of the moment it is built at: the time value
    in milliseconds, and the month (0 to 11) and year in local time. *)
Record JsDate : Type := mkDate {
  getTime : Z;
  getMonth : Z;
  getFullYear : Z
}.

(** A record of [AppState.donations].  [timestamp] holds the time value
    whose ISO text the script keeps: the script only ever reads the text
    back with [new Date(text)], which gives that time value again. *)
Record Donation : Type := mkDonation {
  id : string;
  amount : number;
  tool : string;
  method : string;
  contributor : string;
  timestamp : Z;
  month : Z;
  year : Z
}.

Record Stats : Type := mkStats {
  totalRaised : number;
  monthlyRaised : number;
  toolsSupported : nat;
  contributors : nat
}.

(** The argument of [addDonation]: an object whose [amount] is any value
    and whose text fields are strings or are missing. *)
Record DonationInput : Type := mkInput {
  in_amount : JsValue;
  in_tool : option string;
  in_method : option string;
  in_contributor : option string
}.

(** The two fields of [AppState] the tracker works on. *)
Record AppState : Type := mkAppState {
  donations : list Donation;
  stats : Stats
}.

Definition zero_stats : Stats :=
  {| totalRaised := zero; monthlyRaised := zero;
     toolsSupported := 0; contributors := 0 |}.

(** ** The browser *)

(** A text kept in [localStorage]; the JSON text of a value is
    represented by the value. *)
Inductive StoredText : Type :=
  | PlainText (s : string)
  | JsonDonations (l : list Donation)
  | JsonStats (s : Stats).

(** [localStorage]: when it is not [available], every access throws. *)
Record Storage : Type := mkStorage {
  available : bool;
  items : gmap string StoredText
}.

(** The text of a [.stat-number] element. *)
Inductive StatText : Type :=
  | Markup (s : string)
  | Dollars (n : number)        (* `$${n.toFixed(0)}` *)
  | Count (n : nat).

Inductive Message : Type :=
  | DonationReceived (d : Donation)
  | Plain (s : string).

Record Notification : Type := mkNotification {
  message : Message;
  kind : string
}.

Inductive Error : Type :=
  | SecurityError.

Record World : Type := mkWorld {
  app : AppState;
  localStorage : Storage;
  clock : nat → JsDate;      (* the dates the successive readings give *)
  ticks : nat;               (* how many readings were made *)
  statElements : list StatText;
  notifications : list Notification;
  warnings : list Error      (* what [console.warn] was given *)
}.

Definition with_app (a : AppState) (w : World) : World :=
  mkWorld a (localStorage w) (clock w) (ticks w) (statElements w)
    (notifications w) (warnings w).

Definition with_localStorage (s : Storage) (w : World) : World :=
  mkWorld (app w) s (clock w) (ticks w) (statElements w)
    (notifications w) (warnings w).

Definition with_ticks (n : nat) (w : World) : World :=
  mkWorld (app w) (localStorage w) (clock w) n (statElements w)
    (notifications w) (warnings w).

Definition with_statElements (l : list StatText) (w : World) : World :=
  mkWorld (app w) (localStorage w) (clock w) (ticks w) l
    (notifications w) (warnings w).

Definition with_notifications (l : list Notification) (w : World) : World :=
  mkWorld (app w) (localStorage w) (clock w) (ticks w) (statElements w)
    l (warnings w).

Definition with_warnings (l : list Error) (w : World) : World :=
  mkWorld (app w) (localStorage w) (clock w) (ticks w) (statElements w)
    (notifications w) l.

(** ** Computations *)

Inductive Completion (A : Type) : Type :=
  | Normal (a : A)
  | Throw (e : Error).

Arguments Normal {A} a.
Arguments Throw {A} e.

Definition Js (A : Type) : Type := World → Completion A * World.

#[global] Instance Js_ret : MRet Js := λ A a w, (Normal a, w).

#[global] Instance Js_bind : MBind Js := λ A B f m w,
  match m w with
  | (Normal a, w') => f a w'
  | (Throw e, w') => (Throw e, w')
  end.

(** [try { m } catch (e) { handler(e) }] *)
Definition try_catch {A} (m : Js A) (handler : Error → Js A) : Js A :=
  λ w, match m w with
       | (Normal a, w') => (Normal a, w')
       | (Throw e, w') => handler e w'
       end.

Definition throw {A} (e : Error) : Js A := λ w, (Throw e, w).

Definition get {A} (f : World → A) : Js A := λ w, (Normal (f w), w).

Definition modify (f : World → World) : Js () := λ w, (Normal (), f w).

(** [new Date()]: one more reading of the clock. *)
Definition new_Date : Js JsDate :=
  λ w, (Normal (clock w (ticks w)), with_ticks (S (ticks w)) w).

(** [Date.now()] *)
Definition Date_now : Js Z := d ← new_Date; mret (getTime d).

Definition console_warn (e : Error) : Js () :=
  modify (λ w, with_warnings (warnings w ++ [e]) w).

Definition localStorage_getItem (key : string) : Js (option StoredText) :=
  s ← get localStorage;
  if available s then mret (items s !! key) else throw SecurityError.

Definition localStorage_setItem (key : string) (value : StoredText) : Js () :=
  s ← get localStorage;
  if available s
  then modify (with_localStorage (mkStorage true (<[key := value]> (items s))))
  else throw SecurityError.

(** ** [SafeStorage] *)

Module SafeStorage.

Definition getItem (key : string) : Js (option StoredText) :=
  try_catch (localStorage_getItem key)
    (λ e, console_warn e;; mret None).

Definition setItem (key : string) (value : StoredText) : Js () :=
  try_catch (localStorage_setItem key value)
    (λ e, console_warn e).

End SafeStorage.

(** ** [Utils]

    [showNotification] puts the element on the page; its removal three
    seconds later is left out. *)

Module Utils.

Definition showNotification (m : Message) (type : string) : Js () :=
  modify (λ w, with_notifications (notifications w ++ [mkNotification m type]) w).

End Utils.

(** ** [Array.prototype.sort]

    [l.sort(compare)] puts [l] in the order of [compare], elements that
    compare equal keeping the order they had (the sort is stable), and
    the array itself is rearranged.  Which stable algorithm runs does not
    show in the result; the one written here inserts each element in
    front of the sorted rest. *)
Section ArraySort.

Context {A : Type} (compare : A → A → Z).

Fixpoint sort_insert (x : A) (l : list A) : list A :=
  match l with
  | [] => [x]
  | y :: l' =>
      if compare x y <=? 0 then x :: y :: l' else y :: sort_insert x l'
  end.

Fixpoint Array_sort (l : list A) : list A :=
  match l with
  | [] => []
  | x :: l' => sort_insert x (Array_sort l')
  end.

End ArraySort.

(** ** [DonationTracker] *)

Module DonationTracker.

(** [array.reduce((sum, d) => sum + d.amount, 0)] *)
Definition sum_amounts (ds : list Donation) : number :=
  foldl (λ sum d, add sum (amount d)) zero ds.

(** The statistics [updateStats] derives from the records [ds] when the
    clock shows the month [currentMonth] of the year [currentYear]. *)
Definition compute_stats (currentMonth currentYear : Z)
    (ds : list Donation) : Stats :=
  let thisMonthDonations :=
    filter (λ d, month d = currentMonth ∧ year d = currentYear) ds in
  let monthlyTotal := sum_amounts thisMonthDonations in
  let totalRaised := sum_amounts ds in
  let uniqueContributors :=
    size (list_to_set (contributor <$> ds) : gset string) in
  let supportedTools :=
    size (list_to_set (tool <$> filter (λ d, tool d ≠ "General") ds)
            : gset string) in
  {| totalRaised := totalRaised;
     monthlyRaised := monthlyTotal;
     toolsSupported := supportedTools;
     contributors := uniqueContributors |}.

Definition saveDonations : Js () :=
  a ← get app;
  SafeStorage.setItem "donations" (JsonDonations (donations a));;
  a ← get app;
  SafeStorage.setItem "stats" (JsonStats (stats a)).

Definition displayStats : Js () :=
  s ← get (λ w, stats (app w));
  modify (λ w, with_statElements
                 (<[0%nat := Dollars (monthlyRaised s)]> (statElements w)) w);;
  modify (λ w, with_statElements
                 (<[1%nat := Count (toolsSupported s)]> (statElements w)) w);;
  modify (λ w, with_statElements
                 (<[2%nat := Count (contributors s)]> (statElements w)) w).

Definition updateStats : Js () :=
  d1 ← new_Date;
  let currentMonth := getMonth d1 in
  d2 ← new_Date;
  let currentYear := getFullYear d2 in
  modify (λ w, with_app
                 {| donations := donations (app w);
                    stats := compute_stats currentMonth currentYear
                               (donations (app w)) |} w);;
  saveDonations;;
  displayStats.

(** ['[]'] is the JSON text of the empty array. *)
Definition loadDonations : Js () :=
  modify (with_app {| donations := []; stats := zero_stats |});;
  SafeStorage.setItem "donations" (JsonDonations []);;
  a ← get app;
  SafeStorage.setItem "stats" (JsonStats (stats a)).

Definition init : Js () :=
  loadDonations;;
  updateStats.

Definition showDonationNotification (donation : Donation) : Js () :=
  Utils.showNotification (DonationReceived donation) "success".

Definition addDonation (donation : DonationInput) : Js () :=
  now ← Date_now;
  d1 ← new_Date;
  d2 ← new_Date;
  d3 ← new_Date;
  let newDonation :=
    {| id := NilZero.string_of_int (Z.to_int now);
       amount := parseFloat (in_amount donation);
       tool := or_default (in_tool donation) "General";
       method := or_default (in_method donation) "Unknown";
       contributor := or_default (in_contributor donation) "Anonymous";
       timestamp := getTime d1;
       month := getMonth d2;
       year := getFullYear d3 |} in
  modify (λ w, with_app
                 {| donations := donations (app w) ++ [newDonation];
                    stats := stats (app w) |} w);;
  saveDonations;;
  updateStats;;
  showDonationNotification newDonation.

Definition manualAddDonation (amount : JsValue)
    (tool method contributor : option string) : Js () :=
  addDonation
    {| in_amount := amount;
       in_tool := tool;
       in_method := method;
       in_contributor := Some (or_default contributor "Anonymous") |}.

(** [(a, b) => new Date(b.timestamp) - new Date(a.timestamp)] *)
Definition newest_first (a b : Donation) : Z := timestamp b - timestamp a.

(** The array returned is [AppState.donations] itself, sorted where it
    stands. *)
Definition getDonationHistory : Js (list Donation) :=
  modify (λ w, with_app
                 {| donations := Array_sort newest_first (donations (app w));
                    stats := stats (app w) |} w);;
  get (λ w, donations (app w)).

Definition resetStats : Js () :=
  modify (with_app {| donations := []; stats := zero_stats |});;
  saveDonations;;
  displayStats;;
  Utils.showNotification (Plain "Stats reset successfully") "info".

End DonationTracker.

Export DonationTracker.

(** ** The operations of the ledger, and runs of them *)

Inductive Op : Type :=
  | Initialize                        (* [DonationTracker.init()] *)
  | Append (donation : DonationInput) (* [DonationTracker.addDonation(donation)] *)
  | History                           (* [DonationTracker.getDonationHistory()] *)
  | Reset.                            (* [DonationTracker.resetStats()] *)

(** What a call gives back. *)
Inductive Result : Type :=
  | Undefined
  | Records (l : list Donation).

Definition run_op (o : Op) : Js Result :=
  match o with
  | Initialize => init;; mret Undefined
  | Append donation => addDonation donation;; mret Undefined
  | History => l ← getDonationHistory; mret (Records l)
  | Reset => resetStats;; mret Undefined
  end.

(** The calls of [os] one after the other, up to the first that throws. *)
Fixpoint run_ops (os : list Op) : Js (list Result) :=
  match os with
  | [] => mret []
  | o :: os' => r ← run_op o; rs ← run_ops os'; mret (r :: rs)
  end.

(** The world a computation leaves, and the world a run leaves. *)
Definition exec {A} (m : Js A) (w : World) : World := snd (m w).

Definition after (os : list Op) (w : World) : World := exec (run_ops os) w.

(** The page as the script finds it: the ledger as the [AppState] literal
    sets it, nothing shown yet. *)
Definition page (s : Storage) (c : nat → JsDate) (els : list StatText) : World :=
  {| app := {| donations := []; stats := zero_stats |};
     localStorage := s;
     clock := c;
     ticks := 0;
     statElements := els;
     notifications := [];
     warnings := [] |}.

(** ** The world each function of the tracker leaves *)

(** The world [SafeStorage.setItem key value] leaves: the text is kept
    when the storage works, a warning is logged when it does not. *)
Definition stored (key : string) (value : StoredText) (w : World) : World :=
  if available (localStorage w)
  then with_localStorage
         (mkStorage true (<[key := value]> (items (localStorage w)))) w
  else with_warnings (warnings w ++ [SecurityError]) w.

(** The world [saveDonations] leaves. *)
Definition saved (w : World) : World :=
  stored "stats" (JsonStats (stats (app w)))
    (stored "donations" (JsonDonations (donations (app w))) w).

(** The [.stat-number] elements [els] once the statistics [s] are shown
    in those of them there are. *)
Definition shown (s : Stats) (els : list StatText) : list StatText :=
  <[2%nat := Count (contributors s)]>
    (<[1%nat := Count (toolsSupported s)]>
       (<[0%nat := Dollars (monthlyRaised s)]> els)).

(** The world [displayStats] leaves. *)
Definition displayed (w : World) : World :=
  with_statElements (shown (stats (app w)) (statElements w)) w.

(** The month and the year [updateStats] reads when it starts in [w]. *)
Definition currentMonth (w : World) : Z := getMonth (clock w (ticks w)).
Definition currentYear (w : World) : Z := getFullYear (clock w (S (ticks w))).

(** The world [updateStats] leaves. *)
Definition updated (w : World) : World :=
  displayed
    (saved
       (with_app
          {| donations := donations (app w);
             stats := compute_stats (currentMonth w) (currentYear w)
                        (donations (app w)) |}
          (with_ticks (S (S (ticks w))) w))).

(** The record [addDonation donation] builds when it starts in [w]. *)
Definition record_of (donation : DonationInput) (w : World) : Donation :=
  {| id := NilZero.string_of_int (Z.to_int (getTime (clock w (ticks w))));
     amount := parseFloat (in_amount donation);
     tool := or_default (in_tool donation) "General";
     method := or_default (in_method donation) "Unknown";
     contributor := or_default (in_contributor donation) "Anonymous";
     timestamp := getTime (clock w (1 + ticks w));
     month := getMonth (clock w (2 + ticks w));
     year := getFullYear (clock w (3 + ticks w)) |}.

(** The world [Utils.showNotification m type] leaves. *)
Definition notified (m : Message) (type : string) (w : World) : World :=
  with_notifications (notifications w ++ [mkNotification m type]) w.

(** The world [addDonation donation] leaves. *)
Definition added (donation : DonationInput) (w : World) : World :=
  notified (DonationReceived (record_of donation w)) "success"
    (updated
       (saved
          (with_app
             {| donations := donations (app w) ++ [record_of donation w];
                stats := stats (app w) |}
             (with_ticks (4 + ticks w) w)))).

(** The world [loadDonations] leaves. *)
Definition loaded (w : World) : World :=
  stored "stats" (JsonStats zero_stats)
    (stored "donations" (JsonDonations [])
       (with_app {| donations := []; stats := zero_stats |} w)).

(** The world [resetStats] leaves. *)
Definition cleared (w : World) : World :=
  notified (Plain "Stats reset successfully") "info"
    (displayed (saved (with_app {| donations := []; stats := zero_stats |} w))).

(** The world [getDonationHistory] leaves. *)
Definition sorted (w : World) : World :=
  with_app
    {| donations := Array_sort newest_first (donations (app w));
       stats := stats (app w) |} w.

(** The world a call leaves and what it gives back. *)
Definition step (o : Op) (w : World) : World :=
  match o with
  | Initialize => updated (loaded w)
  | Append donation => added donation w
  | History => sorted w
  | Reset => cleared w
  end.

Definition result_of (o : Op) (w : World) : Result :=
  match o with
  | History => Records (Array_sort newest_first (donations (app w)))
  | _ => Undefined
  end.

Fixpoint results_of (os : list Op) (w : World) : list Result :=
  match os with
  | [] => []
  | o :: os' => result_of o w :: results_of os' (step o w)
  end.

(** The month and the year the recomputation of [addDonation] reads when
    the call starts in [w]. *)
Definition appendMonth (w : World) : Z := getMonth (clock w (4 + ticks w)).
Definition appendYear (w : World) : Z := getFullYear (clock w (5 + ticks w)).

(** ** Notions the properties are stated with *)

(** The sum of a sequence of numbers: they are added one after the other,
    from the left, to [0]. *)
Definition js_sum (l : list number) : number := foldl add zero l.

(** The amount [addDonation] coerces its argument's [amount] to. *)
Definition coerced_amount (donation : DonationInput) : number :=
  parseFloat (in_amount donation).

(** The records a sequence of [addDonation] calls builds, the first call
    starting in [w]. *)
Fixpoint records_of (inputs : list DonationInput) (w : World) : list Donation :=
  match inputs with
  | [] => []
  | i :: inputs' => record_of i w :: records_of inputs' (added i w)
  end.

(** The calls that write the ledger. *)
Definition is_mutation (o : Op) : bool :=
  match o with
  | History => false
  | _ => true
  end.

(** The month and the year read by the recomputation of the call [o]
    started in [w]. *)
Definition month_read (o : Op) (w : World) : Z :=
  match o with
  | Append _ => appendMonth w
  | _ => currentMonth w
  end.

Definition year_read (o : Op) (w : World) : Z :=
  match o with
  | Append _ => appendYear w
  | _ => currentYear w
  end.

(** ** Concrete pages and inputs *)

(** A clock whose readings are one millisecond apart, in November 2026. *)
Definition ticking (n : nat) : JsDate :=
  {| getTime := 1793664000000 + Z.of_nat n; getMonth := 10; getFullYear := 2026 |}.

(** A clock that stands still. *)
Definition frozen (n : nat) : JsDate :=
  {| getTime := 1793664000000; getMonth := 10; getFullYear := 2026 |}.

Definition working_storage : Storage := {| available := true; items := ∅ |}.
Definition broken_storage : Storage := {| available := false; items := ∅ |}.

Definition stat_numbers : list StatText := [Markup "$0"; Markup "0"; Markup "0"].

Definition sample_page : World := page working_storage ticking stat_numbers.

Definition donation_of (amount : JsValue) (tool contributor : option string)
    : DonationInput :=
  {| in_amount := amount; in_tool := tool; in_method := None;
     in_contributor := contributor |}.

(** ** Order of the history *)

(** [l] runs from the newest record to the oldest. *)
Definition newest_first_sorted (l : list Donation) : Prop :=
  StronglySorted (λ a b, timestamp b ≤ timestamp a) l.

(** The records of [l] created at the time [t], in the order [l] has
    them. *)
Definition created_at (t : Z) (l : list Donation) : list Donation :=
  filter (λ d, timestamp d = t) l.

(** The records in the order of their insertion: those of [ledger], then
    those the calls of [os] append, the first call starting in [w];
    [init] and [resetStats] empty the ledger. *)
Fixpoint inserted (os : list Op) (w : World) (ledger : list Donation)
    : list Donation :=
  match os with
  | [] => ledger
  | o :: os' =>
      inserted os' (exec (run_op o) w)
        match o with
        | Append donation => ledger ++ [record_of donation w]
        | History => ledger
        | Initialize | Reset => []
        end
  end.

(** Three inputs told apart by their amounts. *)
Definition donation_A : DonationInput :=
  donation_of (JsNumber (of_Z 1)) (Some "Alpha") (Some "Ann").
Definition donation_B : DonationInput :=
  donation_of (JsNumber (of_Z 2)) (Some "Beta") (Some "Bob").
Definition donation_C : DonationInput :=
  donation_of (JsNumber (of_Z 3)) None None.

Definition frozen_page : World := page working_storage frozen stat_numbers.

(** The three appended within one millisecond. *)
Definition frozen_run : World :=
  after [Initialize; Append donation_A; Append donation_B; Append donation_C]
    frozen_page.

(** Three amounts whose sum depends on the order they are added in. *)
Definition dime : DonationInput := donation_of (JsString "0.1") None None.
Definition two_dimes : DonationInput := donation_of (JsString "0.2") None None.
Definition three_dimes : DonationInput := donation_of (JsString "0.3") None None.

(** ** Counting distinct labels *)

(** [labels] lists each value of [l] once: the number of distinct values
    of [l] is then the length of [labels]. *)
Definition lists_once (labels l : list string) : Prop :=
  NoDup labels ∧ ∀ x, x ∈ labels ↔ x ∈ l.

(** The tools of the records that name one, and the contributors of the
    records. *)
Definition named_tools (ds : list Donation) : list string :=
  filter (λ t, t ≠ "General") (tool <$> ds).

Definition named_contributors (ds : list Donation) : list string :=
  contributor <$> ds.

(** ** Months *)

(** The records of [ds] made in the month [m] of the year [y]. *)
Definition of_month (m y : Z) (ds : list Donation) : list Donation :=
  filter (λ d, month d = m ∧ year d = y) ds.

(** A record of October 2026. *)
Definition october_record : Donation :=
  {| id := "1791000000000"; amount := of_Z 40; tool := "Alpha";
     method := "Unknown"; contributor := "Ann";
     timestamp := 1791000000000; month := 9; year := 2026 |}.

(** A record of November 2026. *)
Definition november_record : Donation :=
  {| id := "1793664000000"; amount := of_Z 25; tool := "General";
     method := "Unknown"; contributor := "Anonymous";
     timestamp := 1793664000001; month := 10; year := 2026 |}.

(** ** What is kept of a world *)

(** The ledger as it is held, persisted and shown. *)
Definition ledger_view (w : World) : AppState * Storage * list StatText :=
  (app w, localStorage w, statElements w).

(** What the page holds in memory and shows, and its clock: the world but
    for the storage and the warnings about it. *)
Definition memory (w : World)
    : AppState * (nat → JsDate) * nat * list StatText * list Notification :=
  (app w, clock w, ticks w, statElements w, notifications w).

(** The calls that leave the records in the ledger. *)
Definition keeps_records (o : Op) : bool :=
  match o with
  | Append _ | History => true
  | Initialize | Reset => false
  end.

Definition not_a_number : DonationInput :=
  donation_of (JsString "ten dollars") (Some "Alpha") (Some "Ann").

(** ** The empty ledger, persisted and shown *)

Definition empty_ledger : AppState := {| donations := []; stats := zero_stats |}.

(** What saving the empty ledger leaves in the storage [s]. *)
Definition emptied (s : Storage) : Storage :=
  if available s
  then mkStorage true
         (<["stats" := JsonStats zero_stats]>
            (<["donations" := JsonDonations []]> (items s)))
  else s.

(** The elements once the empty ledger is shown. *)
Definition zeros_shown (els : list StatText) : list StatText :=
  shown zero_stats els.

(** ** What is persisted and logged *)

(** The storage [s] once the ledger [a] is saved in it. *)
Definition persisted (a : AppState) (s : Storage) : Storage :=
  if available s
  then mkStorage true
         (<["stats" := JsonStats (stats a)]>
            (<["donations" := JsonDonations (donations a)]> (items s)))
  else s.

(** How many times a call writes to the storage. *)
Definition writes_of (o : Op) : nat :=
  match o with
  | Initialize => 4
  | Append _ => 4
  | History => 0
  | Reset => 2
  end.

Definition writes (os : list Op) : nat := sum_list (writes_of <$> os).

(** ** What is announced and what is kept *)

(** The calls that put a notification on the page. *)
Definition announces (o : Op) : bool :=
  match o with
  | Append _ | Reset => true
  | Initialize | History => false
  end.

Definition is_append (o : Op) : bool :=
  match o with
  | Append _ => true
  | _ => false
  end.

(** A record whose three labels are set. *)
Definition labelled (d : Donation) : Prop :=
  tool d ≠ "" ∧ method d ≠ "" ∧ contributor d ≠ "".

(** * The theme and the statistics window *)

(** ** The page around the tracker

    What [ThemeManager] and [window.viewStats] work on besides the world
    of the tracker: the [theme] field of [AppState], the [data-theme]
    attribute of the document element, the element of id [themeToggle]
    when the document has one, the modal windows the script has
    appended to the body, and the [overflow] style of the body. *)

(** The text of the theme button. *)
Inductive ButtonText : Type :=
  | Label (s : string)
  | Sun                         (* '☀️' *)
  | Moon.                       (* '🌙' *)

(** The theme button: its text, and how many listeners
    [() => this.toggleTheme()] are bound to its clicks. *)
Record ThemeToggle : Type := mkThemeToggle {
  textContent : ButtonText;
  clickListeners : nat
}.

(** The last section of the statistics window. *)
Inductive RecentSection : Type :=
  | RecentList (l : list Donation)   (* one [<li>] for each record *)
  | NoDonations.                     (* the paragraph "No donations received yet..." *)

(** The markup put in a modal window, represented by what it shows. *)
Inductive ModalContent : Type :=
  | Html (s : string)
  | StatsView (s : Stats) (recent : RecentSection).

(** A modal window: a [div] of class [modal] in the body. *)
Record Modal : Type := mkModal {
  modal_id : string;
  modal_title : string;
  modal_content : ModalContent;
  show : bool;                  (* whether it has the class [show] *)
  outsideClickListeners : nat   (* the listeners [showModal] has bound *)
}.

Record Page : Type := mkPage {
  world : World;
  theme : string;
  dataTheme : option string;
  themeToggle : option ThemeToggle;
  modals : list Modal;
  bodyOverflow : string
}.

Definition with_world (w : World) (p : Page) : Page :=
  mkPage w (theme p) (dataTheme p) (themeToggle p) (modals p) (bodyOverflow p).

Definition with_theme (t : string) (p : Page) : Page :=
  mkPage (world p) t (dataTheme p) (themeToggle p) (modals p) (bodyOverflow p).

Definition with_dataTheme (t : option string) (p : Page) : Page :=
  mkPage (world p) (theme p) t (themeToggle p) (modals p) (bodyOverflow p).

Definition with_themeToggle (b : option ThemeToggle) (p : Page) : Page :=
  mkPage (world p) (theme p) (dataTheme p) b (modals p) (bodyOverflow p).

Definition with_modals (l : list Modal) (p : Page) : Page :=
  mkPage (world p) (theme p) (dataTheme p) (themeToggle p) l (bodyOverflow p).

Definition with_bodyOverflow (s : string) (p : Page) : Page :=
  mkPage (world p) (theme p) (dataTheme p) (themeToggle p) (modals p) s.

(** Computations on the page. *)
Definition PageJs (A : Type) : Type := Page → Completion A * Page.

#[global] Instance PageJs_ret : MRet PageJs := λ A a p, (Normal a, p).

#[global] Instance PageJs_bind : MBind PageJs := λ A B f m p,
  match m p with
  | (Normal a, p') => f a p'
  | (Throw e, p') => (Throw e, p')
  end.

(** A computation of the tracker's world, run on the page. *)
Definition on_world {A} (m : Js A) : PageJs A :=
  λ p, let '(r, w) := m (world p) in (r, with_world w p).

Definition get_page {A} (f : Page → A) : PageJs A := λ p, (Normal (f p), p).

Definition modify_page (f : Page → Page) : PageJs () := λ p, (Normal (), f p).

Definition exec_page {A} (m : PageJs A) (p : Page) : Page := snd (m p).

(** ** [ThemeManager] *)

Module ThemeManager.

Definition setTheme (theme : string) : PageJs () :=
  modify_page (with_theme theme);;
  modify_page (with_dataTheme (Some theme));;
  on_world (SafeStorage.setItem "theme" (PlainText theme));;
  themeToggle ← get_page themeToggle;
  match themeToggle with
  | Some b =>
      modify_page
        (with_themeToggle
           (Some {| textContent := if decide (theme = "dark") then Sun else Moon;
                    clickListeners := clickListeners b |}))
  | None => mret ()
  end.

Definition toggleTheme : PageJs () :=
  t ← get_page theme;
  let newTheme := if decide (t = "light") then "dark" else "light" in
  setTheme newTheme;;
  on_world
    (Utils.showNotification
       (Plain ("Switched to " +:+ newTheme +:+ " mode")) "success").

Definition bindEvents : PageJs () :=
  themeToggle ← get_page themeToggle;
  match themeToggle with
  | Some b =>
      modify_page
        (with_themeToggle
           (Some {| textContent := textContent b;
                    clickListeners := S (clickListeners b) |}))
  | None => mret ()
  end.

Definition init : PageJs () :=
  t ← get_page theme;
  setTheme t;;
  bindEvents.

End ThemeManager.

(** [n] times [m]. *)
Fixpoint repeatedly (n : nat) (m : PageJs ()) : PageJs () :=
  match n with
  | O => mret ()
  | S n' => m;; repeatedly n' m
  end.

(** A click on the theme button: the listeners bound to it run one after
    the other. *)
Definition click_themeToggle : PageJs () :=
  themeToggle ← get_page themeToggle;
  match themeToggle with
  | Some b => repeatedly (clickListeners b) ThemeManager.toggleTheme
  | None => mret ()
  end.

(** ** [ToolModalManager]: [createModal], [showModal] and [hideModal] *)

Module ToolModalManager.

(** [document.getElementById(id)] among the modal windows: the first of
    that id. *)
Fixpoint remove_first (id : string) (l : list Modal) : list Modal :=
  match l with
  | [] => []
  | m :: l' => if decide (modal_id m = id) then l' else m :: remove_first id l'
  end.

(** The modal of that id there was is removed and a new one is appended
    to the body; what is returned is where the new one is. *)
Definition createModal (id title : string) (content : ModalContent)
    : PageJs nat :=
  modify_page (λ p, with_modals (remove_first id (modals p)) p);;
  modify_page
    (λ p, with_modals (modals p ++ [mkModal id title content false 0]) p);;
  get_page (λ p, pred (length (modals p))).

Definition showModal (modal : nat) : PageJs () :=
  modify_page
    (λ p, with_modals
            (alter (λ m, mkModal (modal_id m) (modal_title m) (modal_content m)
                           true (S (outsideClickListeners m)))
               modal (modals p)) p);;
  modify_page (with_bodyOverflow "hidden").

(** The modals with the first of id [id] no longer shown; nothing when no
    modal has that id. *)
Fixpoint hide_first (id : string) (l : list Modal) : option (list Modal) :=
  match l with
  | [] => None
  | m :: l' =>
      if decide (modal_id m = id)
      then Some (mkModal (modal_id m) (modal_title m) (modal_content m) false
                   (outsideClickListeners m) :: l')
      else (m ::.) <$> hide_first id l'
  end.

(** The removal of the window from the document, 300 milliseconds later,
    is left out. *)
Definition hideModal (modalId : string) : PageJs () :=
  ms ← get_page modals;
  match hide_first modalId ms with
  | Some ms' =>
      modify_page (with_modals ms');;
      modify_page (with_bodyOverflow "")
  | None => mret ()
  end.

End ToolModalManager.

(** ** [window.viewStats] *)

Definition viewStats : PageJs () :=
  stats ← on_world (get (λ w, stats (app w)));
  sorted_ledger ← on_world getDonationHistory;
  let history := take 5 sorted_ledger in
  modal ← ToolModalManager.createModal "statsModal" "Donation Statistics"
             (StatsView stats
                match history with
                | [] => NoDonations
                | _ => RecentList history
                end);
  ToolModalManager.showModal modal.

(** A page around the sample world, with a theme button. *)
Definition sample_theme_page : Page :=
  {| world := sample_page;
     theme := "light";
     dataTheme := None;
     themeToggle := Some {| textContent := Label ""; clickListeners := 0 |};
     modals := [];
     bodyOverflow := "" |}.

(** A record created at the time [t]. *)
Definition record_at (t : Z) : Donation :=
  {| id := "r"; amount := of_Z 10; tool := "Alpha"; method := "Unknown";
     contributor := "Ann"; timestamp := t; month := 10; year := 2026 |}.

(** A page whose ledger holds six records, oldest first. *)
Definition six_records_page : Page :=
  with_world
    (with_app {| donations := record_at <$> [1; 2; 3; 4; 5; 6];
                 stats := zero_stats |} sample_page)
    sample_theme_page.

(** [init], then appends of 0.1, 0.2 and 0.3; the clock of the sample
    page puts them a millisecond apart. *)
Definition dimes : list Op :=
  [Initialize; Append dime; Append two_dimes; Append three_dimes].

(** A world whose ledger holds six records, newest first. *)
Definition newest_first_world : World :=
  with_app {| donations := record_at <$> [6; 5; 4; 3; 2; 1];
              stats := zero_stats |} sample_page.

(** A window that is shown. *)
Definition window (id : string) : Modal :=
  {| modal_id := id; modal_title := id; modal_content := Html "";
     show := true; outsideClickListeners := 1 |}.

(** A page with three windows, all of them shown. *)
Definition three_windows_page : Page :=
  with_modals [window "toolModal"; window "statsModal"; window "paymentModal"]
    six_records_page.

(** ** The page each of these functions leaves *)

(** The text [setTheme theme] gives the button. *)
Definition icon_for (theme : string) : ButtonText :=
  if decide (theme = "dark") then Sun else Moon.

(** The page [ThemeManager.setTheme t] leaves. *)
Definition themed (t : string) (p : Page) : Page :=
  with_themeToggle
    (match themeToggle p with
     | Some b => Some {| textContent := icon_for t;
                         clickListeners := clickListeners b |}
     | None => None
     end)
    (with_world (stored "theme" (PlainText t) (world p))
       (with_dataTheme (Some t) (with_theme t p))).

(** The theme [toggleTheme] goes to from [t]. *)
Definition other_theme (t : string) : string :=
  if decide (t = "light") then "dark" else "light".

(** The page [ThemeManager.toggleTheme] leaves. *)
Definition toggled (p : Page) : Page :=
  let p1 := themed (other_theme (theme p)) p in
  with_world
    (notified (Plain ("Switched to " +:+ other_theme (theme p) +:+ " mode"))
       "success" (world p1)) p1.

(** The page [ThemeManager.bindEvents] leaves. *)
Definition bound (p : Page) : Page :=
  with_themeToggle
    (match themeToggle p with
     | Some b => Some {| textContent := textContent b;
                         clickListeners := S (clickListeners b) |}
     | None => None
     end) p.

(** The theme is the same in [AppState], on the document element and on
    the button, and in the storage when it works. *)
Definition theme_in_step (p : Page) : Prop :=
  dataTheme p = Some (theme p)
  ∧ (∀ b, themeToggle p = Some b → textContent b = icon_for (theme p))
  ∧ (available (localStorage (world p)) = true →
     items (localStorage (world p)) !! "theme" = Some (PlainText (theme p))).

(** The five records [viewStats] lists from the ledger [ds]. *)
Definition recent_five (ds : list Donation) : list Donation :=
  take 5 (Array_sort newest_first ds).

(** The modal [viewStats] opens on the page [p]. *)
Definition stats_modal (p : Page) : Modal :=
  {| modal_id := "statsModal";
     modal_title := "Donation Statistics";
     modal_content :=
       StatsView (stats (app (world p)))
         match recent_five (donations (app (world p))) with
         | [] => NoDonations
         | _ => RecentList (recent_five (donations (app (world p))))
         end;
     show := true;
     outsideClickListeners := 1 |}.

(** The page [viewStats] leaves. *)
Definition viewed (p : Page) : Page :=
  with_bodyOverflow "hidden"
    (with_modals
       (ToolModalManager.remove_first "statsModal" (modals p) ++ [stats_modal p])
       (with_world (sorted (world p)) p)).

(** * Properties *)

(** ** What each function of the tracker does to the world *)

Ltac unfold_js :=
  unfold mbind, Js_bind, mret, Js_ret, get, modify, throw, try_catch,
    console_warn, new_Date, Date_now in *.

#[local] Arguments stored : simpl never.
#[local] Arguments saved : simpl never.
#[local] Arguments displayed : simpl never.
#[local] Arguments updated : simpl never.
#[local] Arguments added : simpl never.
#[local] Arguments loaded : simpl never.
#[local] Arguments cleared : simpl never.
#[local] Arguments sorted : simpl never.
#[local] Arguments notified : simpl never.

Lemma setItem_run key value w :
  SafeStorage.setItem key value w = (Normal (), stored key value w).
Proof.
  unfold SafeStorage.setItem, localStorage_setItem, stored. unfold_js.
  destruct (available (localStorage w)); reflexivity.
Qed.

Lemma getItem_run key w :
  SafeStorage.getItem key w =
    if available (localStorage w)
    then (Normal (items (localStorage w) !! key), w)
    else (Normal None, with_warnings (warnings w ++ [SecurityError]) w).
Proof.
  unfold SafeStorage.getItem, localStorage_getItem. unfold_js.
  destruct (available (localStorage w)); reflexivity.
Qed.

Section StoredFrame.

Variables (key : string) (value : StoredText) (w : World).

Lemma stored_app : app (stored key value w) = app w.
Proof. unfold stored. destruct (available _); reflexivity. Qed.

Lemma stored_clock : clock (stored key value w) = clock w.
Proof. unfold stored. destruct (available _); reflexivity. Qed.

Lemma stored_ticks : ticks (stored key value w) = ticks w.
Proof. unfold stored. destruct (available _); reflexivity. Qed.

Lemma stored_statElements : statElements (stored key value w) = statElements w.
Proof. unfold stored. destruct (available _); reflexivity. Qed.

Lemma stored_notifications :
  notifications (stored key value w) = notifications w.
Proof. unfold stored. destruct (available _); reflexivity. Qed.

Lemma stored_available :
  available (localStorage (stored key value w)) = available (localStorage w).
Proof.
  unfold stored. destruct (available (localStorage w)) eqn:E; simpl; auto.
Qed.

End StoredFrame.

Section SavedFrame.

Variable w : World.

Lemma saved_app : app (saved w) = app w.
Proof. unfold saved. by rewrite !stored_app. Qed.

Lemma saved_clock : clock (saved w) = clock w.
Proof. unfold saved. by rewrite !stored_clock. Qed.

Lemma saved_ticks : ticks (saved w) = ticks w.
Proof. unfold saved. by rewrite !stored_ticks. Qed.

Lemma saved_statElements : statElements (saved w) = statElements w.
Proof. unfold saved. by rewrite !stored_statElements. Qed.

Lemma saved_notifications : notifications (saved w) = notifications w.
Proof. unfold saved. by rewrite !stored_notifications. Qed.

Lemma saved_available :
  available (localStorage (saved w)) = available (localStorage w).
Proof. unfold saved. by rewrite !stored_available. Qed.

End SavedFrame.


Section DisplayedFrame.

Variable w : World.

Lemma displayed_app : app (displayed w) = app w.
Proof. reflexivity. Qed.

Lemma displayed_clock : clock (displayed w) = clock w.
Proof. reflexivity. Qed.

Lemma displayed_ticks : ticks (displayed w) = ticks w.
Proof. reflexivity. Qed.

Lemma displayed_notifications : notifications (displayed w) = notifications w.
Proof. reflexivity. Qed.

Lemma displayed_localStorage : localStorage (displayed w) = localStorage w.
Proof. reflexivity. Qed.

Lemma displayed_statElements :
  statElements (displayed w) = shown (stats (app w)) (statElements w).
Proof. reflexivity. Qed.

End DisplayedFrame.

Section NotifiedFrame.

Variables (m : Message) (type : string) (w : World).

Lemma notified_app : app (notified m type w) = app w.
Proof. reflexivity. Qed.

Lemma notified_clock : clock (notified m type w) = clock w.
Proof. reflexivity. Qed.

Lemma notified_ticks : ticks (notified m type w) = ticks w.
Proof. reflexivity. Qed.

Lemma notified_statElements :
  statElements (notified m type w) = statElements w.
Proof. reflexivity. Qed.

Lemma notified_localStorage : localStorage (notified m type w) = localStorage w.
Proof. reflexivity. Qed.

Lemma notified_notifications :
  notifications (notified m type w)
  = notifications w ++ [mkNotification m type].
Proof. reflexivity. Qed.

End NotifiedFrame.

Lemma saveDonations_run w : saveDonations w = (Normal (), saved w).
Proof.
  unfold saveDonations, saved. unfold_js.
  rewrite setItem_run, setItem_run, stored_app. reflexivity.
Qed.

Lemma displayStats_run w : displayStats w = (Normal (), displayed w).
Proof. reflexivity. Qed.

Lemma updateStats_run w : updateStats w = (Normal (), updated w).
Proof.
  unfold updateStats, updated. unfold_js. simpl.
  rewrite saveDonations_run, displayStats_run. reflexivity.
Qed.

Lemma addDonation_run donation w :
  addDonation donation w = (Normal (), added donation w).
Proof.
  unfold addDonation, added, showDonationNotification, Utils.showNotification.
  unfold_js. simpl.
  rewrite saveDonations_run, updateStats_run. reflexivity.
Qed.

Lemma loadDonations_run w : loadDonations w = (Normal (), loaded w).
Proof.
  unfold loadDonations, loaded. unfold_js.
  rewrite setItem_run, setItem_run, stored_app. reflexivity.
Qed.

Lemma init_run w : init w = (Normal (), updated (loaded w)).
Proof.
  unfold init. unfold_js. rewrite loadDonations_run, updateStats_run.
  reflexivity.
Qed.

Lemma resetStats_run w : resetStats w = (Normal (), cleared w).
Proof.
  unfold resetStats, cleared, Utils.showNotification. unfold_js.
  rewrite saveDonations_run, displayStats_run. reflexivity.
Qed.

Lemma getDonationHistory_run w :
  getDonationHistory w = (Normal (donations (app (sorted w))), sorted w).
Proof. reflexivity. Qed.

Lemma run_op_run o w : run_op o w = (Normal (result_of o w), step o w).
Proof.
  destruct o; unfold run_op; unfold_js.
  - by rewrite init_run.
  - by rewrite addDonation_run.
  - by rewrite getDonationHistory_run.
  - by rewrite resetStats_run.
Qed.

Lemma run_ops_run os w :
  run_ops os w = (Normal (results_of os w), foldl (λ w o, step o w) w os).
Proof.
  revert w. induction os as [|o os IH]; intros w; [reflexivity|].
  simpl. unfold mbind, Js_bind at 1. rewrite run_op_run.
  unfold mbind, Js_bind at 1. rewrite IH. reflexivity.
Qed.

Lemma after_nil w : after [] w = w.
Proof. reflexivity. Qed.

Lemma after_cons o os w : after (o :: os) w = after os (step o w).
Proof. unfold after, exec. by rewrite !run_ops_run. Qed.

Lemma after_app os1 os2 w : after (os1 ++ os2) w = after os2 (after os1 w).
Proof.
  unfold after, exec. rewrite !run_ops_run. simpl. apply foldl_app.
Qed.

Lemma after_snoc os o w : after (os ++ [o]) w = step o (after os w).
Proof. by rewrite after_app, after_cons, after_nil. Qed.

Lemma exec_run_op o w : exec (run_op o) w = step o w.
Proof. unfold exec. by rewrite run_op_run. Qed.

(** *** The ledger each call leaves *)

Lemma updated_app w :
  app (updated w) =
    {| donations := donations (app w);
       stats := compute_stats (currentMonth w) (currentYear w)
                  (donations (app w)) |}.
Proof. unfold updated. by rewrite displayed_app, saved_app. Qed.

Lemma updated_clock w : clock (updated w) = clock w.
Proof. unfold updated. by rewrite displayed_clock, saved_clock. Qed.

Lemma updated_ticks w : ticks (updated w) = S (S (ticks w)).
Proof. unfold updated. by rewrite displayed_ticks, saved_ticks. Qed.

Lemma updated_statElements w :
  statElements (updated w)
  = shown (compute_stats (currentMonth w) (currentYear w) (donations (app w)))
      (statElements w).
Proof.
  unfold updated. by rewrite displayed_statElements, saved_app, saved_statElements.
Qed.

Lemma updated_notifications w : notifications (updated w) = notifications w.
Proof.
  unfold updated. by rewrite displayed_notifications, saved_notifications.
Qed.

Lemma loaded_statElements w : statElements (loaded w) = statElements w.
Proof. unfold loaded. by rewrite !stored_statElements. Qed.

Lemma loaded_notifications w : notifications (loaded w) = notifications w.
Proof. unfold loaded. by rewrite !stored_notifications. Qed.

Lemma loaded_app w : app (loaded w) = {| donations := []; stats := zero_stats |}.
Proof. unfold loaded. by rewrite !stored_app. Qed.

Lemma loaded_clock w : clock (loaded w) = clock w.
Proof. unfold loaded. by rewrite !stored_clock. Qed.

Lemma loaded_ticks w : ticks (loaded w) = ticks w.
Proof. unfold loaded. by rewrite !stored_ticks. Qed.

Lemma initialized_app w :
  app (updated (loaded w)) = {| donations := []; stats := zero_stats |}.
Proof. by rewrite updated_app, loaded_app. Qed.

Lemma cleared_app w : app (cleared w) = {| donations := []; stats := zero_stats |}.
Proof. unfold cleared. by rewrite notified_app, displayed_app, saved_app. Qed.

Lemma cleared_clock w : clock (cleared w) = clock w.
Proof.
  unfold cleared. by rewrite notified_clock, displayed_clock, saved_clock.
Qed.

Lemma cleared_ticks w : ticks (cleared w) = ticks w.
Proof.
  unfold cleared. by rewrite notified_ticks, displayed_ticks, saved_ticks.
Qed.

Lemma added_app donation w :
  app (added donation w) =
    {| donations := donations (app w) ++ [record_of donation w];
       stats := compute_stats (appendMonth w) (appendYear w)
                  (donations (app w) ++ [record_of donation w]) |}.
Proof.
  unfold added. rewrite notified_app, updated_app, saved_app.
  unfold currentMonth, currentYear.
  by rewrite saved_clock, saved_ticks.
Qed.

Lemma added_clock donation w : clock (added donation w) = clock w.
Proof.
  unfold added. by rewrite notified_clock, updated_clock, saved_clock.
Qed.

Lemma added_ticks donation w : ticks (added donation w) = (6 + ticks w)%nat.
Proof.
  unfold added. by rewrite notified_ticks, updated_ticks, saved_ticks.
Qed.

Lemma added_statElements donation w :
  statElements (added donation w)
  = shown (compute_stats (appendMonth w) (appendYear w)
             (donations (app w) ++ [record_of donation w]))
      (statElements w).
Proof.
  unfold added.
  rewrite notified_statElements, updated_statElements, saved_app,
    saved_statElements.
  unfold currentMonth, currentYear. by rewrite saved_clock, saved_ticks.
Qed.

Lemma added_notifications donation w :
  notifications (added donation w)
  = notifications w
    ++ [mkNotification (DonationReceived (record_of donation w)) "success"].
Proof.
  unfold added.
  by rewrite notified_notifications, updated_notifications, saved_notifications.
Qed.

Lemma cleared_notifications w :
  notifications (cleared w)
  = notifications w
    ++ [mkNotification (Plain "Stats reset successfully") "info"].
Proof.
  unfold cleared.
  by rewrite notified_notifications, displayed_notifications,
    saved_notifications.
Qed.

Lemma sorted_app w :
  app (sorted w) =
    {| donations := Array_sort newest_first (donations (app w));
       stats := stats (app w) |}.
Proof. reflexivity. Qed.

(** ** The total raised *)

Lemma foldl_add_fmap (ds : list Donation) (acc : number) :
  foldl (λ sum d, add sum (amount d)) acc ds = foldl add acc (amount <$> ds).
Proof.
  revert acc. induction ds as [|d ds IH]; intros acc; simpl; [done|apply IH].
Qed.

Lemma sum_amounts_js_sum ds : sum_amounts ds = js_sum (amount <$> ds).
Proof. apply foldl_add_fmap. Qed.

Lemma amounts_records_of inputs w :
  amount <$> records_of inputs w = coerced_amount <$> inputs.
Proof.
  revert w. induction inputs as [|i inputs IH]; intros w; simpl; [done|].
  by rewrite IH.
Qed.

Lemma donations_after_appends inputs w :
  donations (app (after (Append <$> inputs) w))
  = donations (app w) ++ records_of inputs w.
Proof.
  revert w. induction inputs as [|i inputs IH]; intros w.
  - simpl. by rewrite after_nil, app_nil_r.
  - rewrite fmap_cons, after_cons, IH. cbn [step records_of].
    rewrite added_app. cbn [donations]. by rewrite <- app_assoc.
Qed.

Lemma results_of_appends inputs w :
  results_of (Append <$> inputs) w = replicate (length inputs) Undefined.
Proof.
  revert w. induction inputs as [|i inputs IH]; intros w; simpl; [done|].
  by rewrite IH.
Qed.

Lemma stats_after_appends inputs i w :
  let w' := after (Append <$> inputs ++ [i]) w in
  ∃ m y, stats (app w') = compute_stats m y (donations (app w')).
Proof.
  intros w'. subst w'. rewrite fmap_app. cbn [fmap list_fmap].
  rewrite after_snoc. cbn [step]. rewrite added_app. cbn [stats donations].
  eauto.
Qed.

(** The total after a non-empty sequence of appends to any ledger. *)
Lemma total_after_appends inputs i w :
  let w' := after (Append <$> inputs ++ [i]) w in
  amount <$> donations (app w')
    = (amount <$> donations (app w)) ++ (coerced_amount <$> inputs ++ [i])
  ∧ totalRaised (stats (app w')) = js_sum (amount <$> donations (app w')).
Proof.
  intros w'. subst w'. split.
  - rewrite donations_after_appends, fmap_app.
    by rewrite amounts_records_of.
  - destruct (stats_after_appends inputs i w) as (m & y & ->).
    apply sum_amounts_js_sum.
Qed.

Lemma total_after_appends_from_empty inputs w :
  app w = {| donations := []; stats := zero_stats |} →
  totalRaised (stats (app (after (Append <$> inputs) w)))
  = js_sum (coerced_amount <$> inputs).
Proof.
  intros Hw. induction inputs as [|i inputs' _] using rev_ind.
  - cbn [fmap list_fmap]. rewrite after_nil, Hw. reflexivity.
  - destruct (total_after_appends inputs' i w) as [Ha ->].
    rewrite Ha, Hw. reflexivity.
Qed.

Lemma js_sum_snoc l x : js_sum (l ++ [x]) = add (js_sum l) x.
Proof. unfold js_sum. by rewrite foldl_app. Qed.

(** C1.  After any sequence of [addDonation] calls on the empty ledger
    (the one [init] leaves, or [resetStats]), the stored [totalRaised]
    is the sum of the coerced amounts of the inputs, in the order of the
    calls; the calls all complete, and each adds its coerced amount to
    the total there was.  On a ledger that holds records already, the
    total after the last call is the sum of the amounts of all the
    records, those appended following those there were.  Amounts ["25"]
    and [10] give the total 35. *)
Theorem totalRaised_sums_appended_amounts :
  (∀ w inputs,
     fst (run_ops (Initialize :: (Append <$> inputs)) w)
       = Normal (replicate (S (length inputs)) Undefined)
     ∧ totalRaised (stats (app (after (Initialize :: (Append <$> inputs)) w)))
       = js_sum (coerced_amount <$> inputs))
  ∧ (∀ w inputs,
       totalRaised (stats (app (after (Reset :: (Append <$> inputs)) w)))
       = js_sum (coerced_amount <$> inputs))
  ∧ (∀ w inputs i,
       let w' := after (Append <$> inputs ++ [i]) w in
       amount <$> donations (app w')
         = (amount <$> donations (app w)) ++ (coerced_amount <$> inputs ++ [i])
       ∧ totalRaised (stats (app w')) = js_sum (amount <$> donations (app w')))
  ∧ (∀ w inputs i,
       totalRaised
         (stats (app (after (Initialize :: (Append <$> inputs ++ [i])) w)))
       = add (totalRaised
                (stats (app (after (Initialize :: (Append <$> inputs)) w))))
           (coerced_amount i))
  ∧ (∀ w t1 m1 c1 t2 m2 c2,
       totalRaised
         (stats (app (after [Initialize;
                             Append (mkInput (JsString "25") t1 m1 c1);
                             Append (mkInput (JsNumber (of_Z 10)) t2 m2 c2)]
                        w)))
       = of_Z 35).
Proof.
  assert (∀ w inputs,
            totalRaised
              (stats (app (after (Initialize :: (Append <$> inputs)) w)))
            = js_sum (coerced_amount <$> inputs)) as Hinit.
  { intros w inputs. rewrite after_cons.
    apply total_after_appends_from_empty, initialized_app. }
  split; [|split; [|split; [|split]]].
  - intros w inputs. split; [|apply Hinit].
    rewrite run_ops_run. cbn [fst results_of result_of step].
    by rewrite results_of_appends.
  - intros w inputs. rewrite after_cons.
    apply total_after_appends_from_empty, cleared_app.
  - intros w inputs i. apply total_after_appends.
  - intros w inputs i. rewrite !Hinit, fmap_app.
    change (coerced_amount <$> [i]) with [coerced_amount i].
    apply js_sum_snoc.
  - intros w t1 m1 c1 t2 m2 c2.
    etransitivity;
      [exact (Hinit w [mkInput (JsString "25") t1 m1 c1;
                       mkInput (JsNumber (of_Z 10)) t2 m2 c2])|].
    vm_compute. reflexivity.
Qed.

(** ** The stored statistics are those of the stored records *)

Lemma stats_after_mutation o w :
  is_mutation o = true →
  stats (app (step o w))
  = compute_stats (month_read o w) (year_read o w) (donations (app (step o w))).
Proof.
  destruct o; intros Hm; try discriminate; cbn [step month_read year_read].
  - rewrite updated_app, loaded_app. cbn [stats donations].
    unfold currentMonth, currentYear.
    by rewrite loaded_clock, loaded_ticks.
  - by rewrite added_app.
  - by rewrite cleared_app.
Qed.

(** The calls that recompute.  After [init], after [addDonation] and
    after [resetStats], from whatever world the call starts in, the stored
    statistics are those [compute_stats] derives from the stored records,
    at the month and the year the call read off the clock (for
    [resetStats], which reads none, at any: the ledger is empty).  So are
    they in the page as loaded, and in every world a run of these three
    calls leads to.  [getDonationHistory] is not one of them. *)
Theorem stats_never_stale :
  (∀ o w,
     is_mutation o = true →
     let w' := exec (run_op o) w in
     fst (run_op o w) = Normal Undefined
     ∧ stats (app w')
       = compute_stats (month_read o w) (year_read o w) (donations (app w')))
  ∧ (∀ w m y,
       stats (app (exec resetStats w))
       = compute_stats m y (donations (app (exec resetStats w))))
  ∧ (∀ s c els os,
       Forall (λ o, is_mutation o = true) os →
       let w := after os (page s c els) in
       ∃ m y, stats (app w) = compute_stats m y (donations (app w))).
Proof.
  split; [|split].
  - intros o w Hm w'. subst w'. rewrite exec_run_op, run_op_run. split.
    + by destruct o.
    + by apply stats_after_mutation.
  - intros w m y. unfold exec. rewrite resetStats_run. cbn [snd].
    by rewrite cleared_app.
  - intros s c els os Hos w. subst w.
    induction os as [|o os _] using rev_ind.
    + rewrite after_nil. by exists 0, 0.
    + apply Forall_app in Hos as [_ Ho]. inversion_clear Ho as [|? ? Ho' _].
      rewrite after_snoc. eexists _, _. by apply stats_after_mutation.
Qed.

Lemma stats_never_stale_witness :
  let w := after [Initialize; Append donation_A; Reset; Append donation_B;
                  Append donation_C] sample_page in
  ∃ m y, stats (app w) = compute_stats m y (donations (app w)).
Proof.
  apply (proj2 (proj2 stats_never_stale)).
  repeat constructor.
Defined.

(** The total [compute_stats] gives does not depend on the month and the
    year it is computed at. *)
Lemma totalRaised_sum_amounts m y ds :
  totalRaised (compute_stats m y ds) = sum_amounts ds.
Proof. reflexivity. Qed.

Lemma history_keeps_stats w : stats (app (sorted w)) = stats (app w).
Proof. reflexivity. Qed.

Lemma history_sorts_donations w :
  donations (app (sorted w)) = Array_sort newest_first (donations (app w)).
Proof. reflexivity. Qed.

Lemma dimes_run_fresh :
  stats (app (after dimes sample_page)) = compute_stats 10 2026 (donations (app (after dimes sample_page))).
Proof. vm_compute. reflexivity. Qed.

Lemma dimes_run_total :
  totalRaised (stats (app (after dimes sample_page))) = of_decimal false 6000000000000001 (-16).
Proof. vm_compute. reflexivity. Qed.

Lemma dimes_run_sorted :
  Array_sort newest_first (donations (app (after dimes sample_page)))
  = rev (donations (app (after dimes sample_page))).
Proof. vm_compute. reflexivity. Qed.

Lemma dimes_run_rev_sum :
  sum_amounts (rev (donations (app (after dimes sample_page)))) = of_decimal false 6 (-1).
Proof. vm_compute. reflexivity. Qed.

Lemma dimes_run_sums_differ :
  of_decimal false 6000000000000001 (-16) ≠ of_decimal false 6 (-1).
Proof. vm_compute. discriminate. Qed.

(** C2, where the code departs from it.  [init], [addDonation] and
    [resetStats] recompute the statistics; [getDonationHistory] puts the
    ledger in another order and recomputes nothing.  After [init], appends
    of 0.1, 0.2 and 0.3 a millisecond apart and one reading of the
    history, as a click on the statistics button does it, the stored
    statistics are those of before the reading, the ledger is turned
    round, and the stored statistics are not those of the stored records,
    at whatever month and year they are recomputed: the stored total is
    0.6000000000000001, the total of the stored records 0.6.  Before the
    history was read the two agreed. *)
Theorem stats_stale_after_history :
  let w := after dimes sample_page in
  let w' := after (dimes ++ [History]) sample_page in
  stats (app w) = compute_stats 10 2026 (donations (app w))
  ∧ w' = exec getDonationHistory w
  ∧ stats (app w') = stats (app w)
  ∧ donations (app w') = rev (donations (app w))
  ∧ totalRaised (stats (app w')) = of_decimal false 6000000000000001 (-16)
  ∧ (∀ m y,
       totalRaised (compute_stats m y (donations (app w')))
       = of_decimal false 6 (-1))
  ∧ (∀ m y, stats (app w') ≠ compute_stats m y (donations (app w'))).
Proof.
  cbv zeta. rewrite after_snoc. cbn [step].
  unfold exec. rewrite getDonationHistory_run. cbn [snd].
  rewrite history_keeps_stats, history_sorts_donations, dimes_run_sorted.
  split; [exact dimes_run_fresh|].
  split; [reflexivity|]. split; [reflexivity|]. split; [reflexivity|].
  split; [exact dimes_run_total|].
  split.
  - intros m y. rewrite totalRaised_sum_amounts. exact dimes_run_rev_sum.
  - intros m y H. apply (f_equal totalRaised) in H.
    rewrite totalRaised_sum_amounts, dimes_run_total, dimes_run_rev_sum in H.
    exact (dimes_run_sums_differ H).
Qed.

(** ** The history *)

Section Sorting.

Implicit Types (x y : Donation) (l : list Donation) (t : Z).

Lemma sort_insert_perm x l : sort_insert newest_first x l ≡ₚ x :: l.
Proof.
  induction l as [|y l IH]; simpl; [done|].
  destruct (newest_first x y <=? 0); [done|].
  rewrite IH. apply Permutation_swap.
Qed.

Lemma Array_sort_perm l : Array_sort newest_first l ≡ₚ l.
Proof.
  induction l as [|x l IH]; simpl; [done|].
  by rewrite sort_insert_perm, IH.
Qed.

Lemma sort_insert_sorted x l :
  newest_first_sorted l → newest_first_sorted (sort_insert newest_first x l).
Proof.
  unfold newest_first_sorted.
  induction l as [|y l IH]; intros Hl; simpl.
  - repeat constructor.
  - inversion_clear Hl as [|? ? Hl' Hy].
    destruct (Z.leb_spec (newest_first x y) 0) as [Hle|Hgt];
      unfold newest_first in *.
    + constructor; [by constructor|].
      constructor; [lia|].
      eapply Forall_impl; [exact Hy|]. simpl. intros; lia.
    + constructor; [by apply IH|].
      rewrite sort_insert_perm. constructor; [lia|done].
Qed.

Lemma Array_sort_sorted l : newest_first_sorted (Array_sort newest_first l).
Proof.
  induction l as [|x l IH]; simpl.
  - constructor.
  - by apply sort_insert_sorted.
Qed.

(** The sort is stable: records of one timestamp keep their order. *)
Lemma sort_insert_created_at t x l :
  created_at t (sort_insert newest_first x l) = created_at t (x :: l).
Proof.
  unfold created_at.
  induction l as [|y l IH]; simpl; [done|].
  destruct (Z.leb_spec (newest_first x y) 0) as [Hle|Hgt]; [done|].
  unfold newest_first in Hgt.
  rewrite (filter_cons _ y), IH, !(filter_cons _ x), (filter_cons _ y).
  repeat case_decide; (done || lia).
Qed.

Lemma Array_sort_created_at t l :
  created_at t (Array_sort newest_first l) = created_at t l.
Proof.
  induction l as [|x l IH]; simpl; [done|].
  rewrite sort_insert_created_at. unfold created_at in *.
  by rewrite !(filter_cons _ x), IH.
Qed.

Lemma created_at_elem_of t x l : x ∈ created_at t l ↔ timestamp x = t ∧ x ∈ l.
Proof.
  unfold created_at. apply (list_elem_of_filter (λ d, timestamp d = t)).
Qed.

(** Two lists that run newest first and agree on the order of the
    records of each timestamp are the same list. *)
Lemma newest_first_unique l1 l2 :
  newest_first_sorted l1 → newest_first_sorted l2 →
  (∀ t, created_at t l1 = created_at t l2) →
  l1 = l2.
Proof.
  unfold newest_first_sorted. revert l2.
  induction l1 as [|x l1 IH]; intros l2 H1 H2 Heq.
  - destruct l2 as [|y l2]; [done|].
    specialize (Heq (timestamp y)). unfold created_at in Heq.
    rewrite filter_nil, filter_cons_True in Heq; done.
  - destruct l2 as [|y l2].
    { specialize (Heq (timestamp x)). unfold created_at in Heq.
      rewrite filter_nil, filter_cons_True in Heq; done. }
    inversion_clear H1 as [|? ? H1' Hx].
    inversion_clear H2 as [|? ? H2' Hy].
    assert (timestamp x = timestamp y) as Hxy.
    { assert (x ∈ y :: l2) as Hin1.
      { eapply (created_at_elem_of (timestamp x)). rewrite <- Heq.
        apply created_at_elem_of. split; [done|left]. }
      assert (y ∈ x :: l1) as Hin2.
      { eapply (created_at_elem_of (timestamp y)). rewrite Heq.
        apply created_at_elem_of. split; [done|left]. }
      rewrite Forall_forall in Hx, Hy.
      apply elem_of_cons in Hin1 as [->|Hin1]; [done|].
      apply elem_of_cons in Hin2 as [->|Hin2]; [done|].
      apply Hy in Hin1. apply Hx in Hin2. lia. }
    assert (x = y) as ->.
    { specialize (Heq (timestamp x)). unfold created_at in Heq.
      rewrite !filter_cons_True in Heq by done. congruence. }
    f_equal. apply IH; [done..|].
    intros t. specialize (Heq t). unfold created_at in *.
    rewrite !(filter_cons _ y) in Heq. case_decide; congruence.
Qed.

Lemma Array_sort_ext l1 l2 :
  (∀ t, created_at t l1 = created_at t l2) →
  Array_sort newest_first l1 = Array_sort newest_first l2.
Proof.
  intros Heq. apply newest_first_unique; try apply Array_sort_sorted.
  intros t. by rewrite !Array_sort_created_at.
Qed.

End Sorting.

Lemma created_at_app t l1 l2 :
  created_at t (l1 ++ l2) = created_at t l1 ++ created_at t l2.
Proof. apply filter_app. Qed.

(** Along a run, the stored records of one timestamp stay in the order of
    their insertion. *)
Lemma ledger_keeps_insertion_order os w ledger :
  (∀ t, created_at t (donations (app w)) = created_at t ledger) →
  ∀ t, created_at t (donations (app (after os w)))
       = created_at t (inserted os w ledger).
Proof.
  revert w ledger. induction os as [|o os IH]; intros w ledger Hw t.
  - rewrite after_nil. apply Hw.
  - rewrite after_cons. cbn [inserted]. rewrite exec_run_op.
    apply IH. clear t. intros t. destruct o; cbn [step].
    + by rewrite initialized_app.
    + rewrite added_app. cbn [donations]. by rewrite !created_at_app, Hw.
    + rewrite sorted_app. cbn [donations].
      by rewrite Array_sort_created_at.
    + by rewrite cleared_app.
Qed.

Lemma sort_insert_older x y l :
  timestamp x < timestamp y →
  sort_insert newest_first x (y :: l) = y :: sort_insert newest_first x l.
Proof.
  intros Hlt. cbn [sort_insert]. unfold newest_first.
  destruct (Z.leb_spec (timestamp y - timestamp x) 0); [lia|done].
Qed.

Lemma history_result w :
  fst (getDonationHistory w)
  = Normal (Array_sort newest_first (donations (app w))).
Proof. reflexivity. Qed.

Lemma three_appends a b c w :
  let w1 := exec (addDonation a) w in
  let w2 := exec (addDonation b) w1 in
  let w3 := exec (addDonation c) w2 in
  donations (app w3)
  = donations (app w) ++ [record_of a w; record_of b w1; record_of c w2].
Proof.
  intros w1 w2 w3. subst w1 w2 w3. unfold exec.
  rewrite !addDonation_run. cbn [snd]. rewrite !added_app. cbn [donations].
  by rewrite <- !app_assoc.
Qed.

(** C3, as the code has it.  [getDonationHistory] gives the stored records
    from the newest to the oldest, records of one timestamp in the order
    the ledger has them, which along any run is the order of their
    insertion.  Three records appended to the empty ledger at strictly
    increasing timestamps come back last first. *)
Theorem history_newest_first_stable :
  (∀ w,
     let h := Array_sort newest_first (donations (app w)) in
     fst (getDonationHistory w) = Normal h
     ∧ h ≡ₚ donations (app w)
     ∧ newest_first_sorted h
     ∧ ∀ t, created_at t h = created_at t (donations (app w)))
  ∧ (∀ os w,
       let h := Array_sort newest_first (inserted os w (donations (app w))) in
       fst (getDonationHistory (after os w)) = Normal h
       ∧ newest_first_sorted h
       ∧ ∀ t, created_at t h = created_at t (inserted os w (donations (app w))))
  ∧ (∀ w a b c,
       let w1 := exec (addDonation a) w in
       let w2 := exec (addDonation b) w1 in
       let w3 := exec (addDonation c) w2 in
       let A := record_of a w in
       let B := record_of b w1 in
       let C := record_of c w2 in
       donations (app w) = [] →
       timestamp A < timestamp B < timestamp C →
       fst (getDonationHistory w3) = Normal [C; B; A]).
Proof.
  split; [|split].
  - intros w h. subst h. split; [apply history_result|].
    split; [apply Array_sort_perm|].
    split; [apply Array_sort_sorted|].
    intros t. apply Array_sort_created_at.
  - intros os w h. subst h. split; [|split].
    + rewrite history_result. f_equal. apply Array_sort_ext.
      by apply ledger_keeps_insertion_order.
    + apply Array_sort_sorted.
    + intros t. apply Array_sort_created_at.
  - intros w a b c w1 w2 w3 A B C Hw [HAB HBC].
    assert (donations (app w3) = donations (app w) ++ [A; B; C]) as H3
      by apply three_appends.
    rewrite history_result, H3, Hw.
    cbn [List.app Array_sort].
    change (sort_insert newest_first C []) with [C].
    rewrite (sort_insert_older B C) by lia.
    change (sort_insert newest_first B []) with [B].
    rewrite (sort_insert_older A C), (sort_insert_older A B) by lia.
    reflexivity.
Qed.

Lemma history_newest_first_stable_witness :
  let w1 := exec (addDonation donation_A) sample_page in
  let w2 := exec (addDonation donation_B) w1 in
  let w3 := exec (addDonation donation_C) w2 in
  fst (getDonationHistory w3)
  = Normal [record_of donation_C w2; record_of donation_B w1;
            record_of donation_A sample_page].
Proof.
  apply (proj2 (proj2 history_newest_first_stable)
           sample_page donation_A donation_B donation_C).
  - reflexivity.
  - vm_compute. split; reflexivity.
Defined.

(** Against C3 as stated: three records appended within one millisecond
    come back in the order of their insertion, not last first. *)
Lemma history_last_first_counterexample :
  amount <$> donations (app frozen_run) = [of_Z 1; of_Z 2; of_Z 3]
  ∧ (∃ h, fst (getDonationHistory frozen_run) = Normal h
          ∧ amount <$> h = [of_Z 1; of_Z 2; of_Z 3]
          ∧ amount <$> h ≠ [of_Z 3; of_Z 2; of_Z 1])
  ∧ ¬ (∀ w a b c,
         let w1 := exec (addDonation a) w in
         let w2 := exec (addDonation b) w1 in
         let w3 := exec (addDonation c) w2 in
         donations (app w) = [] →
         fst (getDonationHistory w3)
         = Normal [record_of c w2; record_of b w1; record_of a w]).
Proof.
  split; [vm_compute; reflexivity|]. split.
  - eexists. split; [reflexivity|]. split; [vm_compute; reflexivity|].
    vm_compute. discriminate.
  - intros H.
    specialize (H frozen_page donation_A donation_B donation_C eq_refl).
    vm_compute in H. discriminate H.
Qed.

(** ** The history rearranges the ledger *)

(** C4, where the code departs from it.  [getDonationHistory] leaves the
    statistics as they are and the ledger sorted: after two appends a
    millisecond apart the stored sequence is turned round, and after
    appends of 0.1, 0.2 and 0.3 the stored total, 0.6000000000000001, is
    no longer the sum of the stored sequence, 0.6. *)
Theorem getDonationHistory_sorts_the_ledger :
  (∀ w,
     app (exec getDonationHistory w)
     = {| donations := Array_sort newest_first (donations (app w));
          stats := stats (app w) |})
  ∧ (let w := after [Initialize; Append donation_A; Append donation_B]
                sample_page in
     donations (app (exec getDonationHistory w)) = rev (donations (app w))
     ∧ donations (app (exec getDonationHistory w)) ≠ donations (app w))
  ∧ (let w := after [Initialize; Append dime; Append two_dimes;
                      Append three_dimes] sample_page in
     let w' := exec getDonationHistory w in
     totalRaised (stats (app w)) = sum_amounts (donations (app w))
     ∧ totalRaised (stats (app w')) = of_decimal false 6000000000000001 (-16)
     ∧ sum_amounts (donations (app w')) = of_decimal false 6 (-1)
     ∧ totalRaised (stats (app w')) ≠ sum_amounts (donations (app w'))).
Proof.
  split; [|split].
  - intros w. reflexivity.
  - split; [vm_compute; reflexivity|vm_compute; discriminate].
  - split; [vm_compute; reflexivity|].
    split; [vm_compute; reflexivity|].
    split; [vm_compute; reflexivity|vm_compute; discriminate].
Qed.

(** ** Tools and contributors *)

Lemma size_list_to_set_lists_once (labels l : list string) :
  lists_once labels l → size (list_to_set l : gset string) = length labels.
Proof.
  intros [Hnd Hin]. unfold size, set_size. simpl.
  apply Permutation_length, NoDup_Permutation; [apply NoDup_elements|done|].
  intros x. by rewrite elem_of_elements, elem_of_list_to_set, Hin.
Qed.

Lemma size_list_to_set_remove_dups (l : list string) :
  size (list_to_set l : gset string) = length (remove_dups l).
Proof.
  apply size_list_to_set_lists_once. split; [apply NoDup_remove_dups|].
  intros x. apply elem_of_remove_dups.
Qed.

Lemma filter_tool_fmap (ds : list Donation) :
  tool <$> filter (λ d, tool d ≠ "General") ds = named_tools ds.
Proof.
  unfold named_tools. induction ds as [|d ds IH]; [done|].
  rewrite fmap_cons, (filter_cons _ d), (filter_cons _ (tool d)).
  case_decide; by rewrite ?fmap_cons, IH.
Qed.

Lemma toolsSupported_compute_stats m y ds :
  toolsSupported (compute_stats m y ds)
  = size (list_to_set (named_tools ds) : gset string).
Proof. unfold compute_stats. cbn [toolsSupported]. by rewrite filter_tool_fmap. Qed.

Lemma contributors_compute_stats m y ds :
  contributors (compute_stats m y ds)
  = size (list_to_set (named_contributors ds) : gset string).
Proof. reflexivity. Qed.

Lemma elem_of_named_tools t ds :
  t ∈ named_tools ds ↔ t ≠ "General" ∧ ∃ d, d ∈ ds ∧ tool d = t.
Proof.
  unfold named_tools.
  rewrite (list_elem_of_filter (λ t, t ≠ "General")), list_elem_of_fmap.
  split.
  - intros [Hne (d & -> & Hd)]. eauto.
  - intros [Hne (d & Hd & <-)]. eauto.
Qed.

Lemma elem_of_named_contributors c ds :
  c ∈ named_contributors ds ↔ ∃ d, d ∈ ds ∧ contributor d = c.
Proof.
  unfold named_contributors. rewrite list_elem_of_fmap. split.
  - intros (d & -> & Hd). eauto.
  - intros (d & Hd & <-). eauto.
Qed.

Lemma tools_records_of inputs w :
  tool <$> records_of inputs w
  = (λ i, or_default (in_tool i) "General") <$> inputs.
Proof.
  revert w. induction inputs as [|i inputs IH]; intros w; [done|].
  cbn [records_of]. by rewrite !fmap_cons, IH.
Qed.

Lemma contributors_records_of inputs w :
  contributor <$> records_of inputs w
  = (λ i, or_default (in_contributor i) "Anonymous") <$> inputs.
Proof.
  revert w. induction inputs as [|i inputs IH]; intros w; [done|].
  cbn [records_of]. by rewrite !fmap_cons, IH.
Qed.

(** The ledger after [init] and a sequence of appends. *)
Lemma ledger_after_init_appends inputs w :
  let w' := after (Initialize :: (Append <$> inputs)) w in
  donations (app w') = records_of inputs (step Initialize w)
  ∧ ∃ m y, stats (app w') = compute_stats m y (donations (app w')).
Proof.
  intros w'. subst w'. rewrite after_cons. split.
  - rewrite donations_after_appends. cbn [step]. by rewrite initialized_app.
  - induction inputs as [|i inputs _] using rev_ind.
    + cbn [fmap list_fmap]. rewrite after_nil. cbn [step].
      rewrite initialized_app. by exists 0, 0.
    + apply stats_after_appends.
Qed.

(** C5.  [toolsSupported] is the number of distinct tools among the
    records whose tool is not ["General"]: the length of any list that
    names each such tool once, and of the tools with the repetitions
    removed.  After [init], two appends for ["Alpha"] and one for
    ["General"], whatever their other fields, it is 1. *)
Theorem toolsSupported_counts_distinct_tools :
  (∀ m y ds labels,
     NoDup labels →
     (∀ t, t ∈ labels ↔ t ≠ "General" ∧ ∃ d, d ∈ ds ∧ tool d = t) →
     toolsSupported (compute_stats m y ds) = length labels)
  ∧ (∀ m y ds,
       toolsSupported (compute_stats m y ds)
       = length (remove_dups (named_tools ds)))
  ∧ (∀ w a1 m1 c1 a2 m2 c2 a3 m3 c3,
       let w' :=
         after [Initialize;
                Append (mkInput a1 (Some "Alpha") m1 c1);
                Append (mkInput a2 (Some "Alpha") m2 c2);
                Append (mkInput a3 (Some "General") m3 c3)] w in
       tool <$> donations (app w') = ["Alpha"; "Alpha"; "General"]
       ∧ toolsSupported (stats (app w')) = 1%nat).
Proof.
  split; [|split].
  - intros m y ds labels Hnd Hin. rewrite toolsSupported_compute_stats.
    apply size_list_to_set_lists_once. split; [done|].
    intros t. by rewrite Hin, elem_of_named_tools.
  - intros m y ds. rewrite toolsSupported_compute_stats.
    apply size_list_to_set_remove_dups.
  - intros w a1 m1 c1 a2 m2 c2 a3 m3 c3 w'.
    pose proof (ledger_after_init_appends
                  [mkInput a1 (Some "Alpha") m1 c1;
                   mkInput a2 (Some "Alpha") m2 c2;
                   mkInput a3 (Some "General") m3 c3] w) as [Hds (m & y & Hst)].
    change (after _ w) with w' in Hds, Hst.
    assert (tool <$> donations (app w') = ["Alpha"; "Alpha"; "General"]) as Ht.
    { rewrite Hds, tools_records_of. reflexivity. }
    split; [done|].
    rewrite Hst, toolsSupported_compute_stats. unfold named_tools.
    rewrite Ht. reflexivity.
Qed.

Lemma toolsSupported_counts_distinct_tools_witness :
  toolsSupported
    (compute_stats 10 2026
       (donations (app (after [Initialize; Append donation_A; Append donation_B;
                               Append donation_C; Append donation_A]
                          sample_page))))
  = length ["Alpha"; "Beta"].
Proof.
  apply (proj1 toolsSupported_counts_distinct_tools).
  - apply (bool_decide_unpack _). vm_compute. reflexivity.
  - intros t. rewrite <- elem_of_named_tools.
    change (t ∈ ["Alpha"; "Beta"] ↔ t ∈ ["Alpha"; "Beta"; "Alpha"]).
    rewrite !elem_of_cons, elem_of_nil. tauto.
Defined.

(** C6.  [contributors] is the number of distinct contributor names among
    the records, ["Anonymous"] counting as a name like any other.  After
    [init] and three appends that give no contributor, whatever their
    other fields, the three records are by ["Anonymous"] and the count is
    1; so it is when the appends go through [manualAddDonation]. *)
Theorem contributors_counts_distinct_names :
  (∀ m y ds names,
     NoDup names →
     (∀ c, c ∈ names ↔ ∃ d, d ∈ ds ∧ contributor d = c) →
     contributors (compute_stats m y ds) = length names)
  ∧ (∀ m y ds,
       contributors (compute_stats m y ds)
       = length (remove_dups (named_contributors ds)))
  ∧ (∀ w a1 t1 m1 a2 t2 m2 a3 t3 m3,
       let w' :=
         after [Initialize;
                Append (mkInput a1 t1 m1 None);
                Append (mkInput a2 t2 m2 None);
                Append (mkInput a3 t3 m3 None)] w in
       contributor <$> donations (app w')
         = ["Anonymous"; "Anonymous"; "Anonymous"]
       ∧ contributors (stats (app w')) = 1%nat)
  ∧ (∀ a t m, manualAddDonation a t m None
              = addDonation (mkInput a t m (Some "Anonymous"))).
Proof.
  split; [|split; [|split]].
  - intros m y ds names Hnd Hin. rewrite contributors_compute_stats.
    apply size_list_to_set_lists_once. split; [done|].
    intros c. by rewrite Hin, elem_of_named_contributors.
  - intros m y ds. rewrite contributors_compute_stats.
    apply size_list_to_set_remove_dups.
  - intros w a1 t1 m1 a2 t2 m2 a3 t3 m3 w'.
    pose proof (ledger_after_init_appends
                  [mkInput a1 t1 m1 None; mkInput a2 t2 m2 None;
                   mkInput a3 t3 m3 None] w) as [Hds (m & y & Hst)].
    change (after _ w) with w' in Hds, Hst.
    assert (contributor <$> donations (app w')
            = ["Anonymous"; "Anonymous"; "Anonymous"]) as Hc.
    { rewrite Hds, contributors_records_of. reflexivity. }
    split; [done|].
    rewrite Hst, contributors_compute_stats. unfold named_contributors.
    rewrite Hc. reflexivity.
  - reflexivity.
Qed.

Lemma contributors_counts_distinct_names_witness :
  contributors
    (compute_stats 10 2026
       (donations (app (after [Initialize; Append donation_A; Append donation_B;
                               Append donation_C; Append donation_A]
                          sample_page))))
  = length ["Ann"; "Bob"; "Anonymous"].
Proof.
  apply (proj1 contributors_counts_distinct_names).
  - apply (bool_decide_unpack _). vm_compute. reflexivity.
  - intros c. rewrite <- elem_of_named_contributors.
    change (c ∈ ["Ann"; "Bob"; "Anonymous"]
            ↔ c ∈ ["Ann"; "Bob"; "Anonymous"; "Ann"]).
    rewrite !elem_of_cons, elem_of_nil. tauto.
Defined.

(** ** The amount raised this month *)

Lemma monthlyRaised_compute_stats m y ds :
  monthlyRaised (compute_stats m y ds) = js_sum (amount <$> of_month m y ds).
Proof. unfold compute_stats. cbn [monthlyRaised]. apply sum_amounts_js_sum. Qed.

Lemma totalRaised_compute_stats m y ds :
  totalRaised (compute_stats m y ds) = js_sum (amount <$> ds).
Proof. unfold compute_stats. cbn [totalRaised]. apply sum_amounts_js_sum. Qed.

Lemma of_month_elem_of m y d ds :
  d ∈ of_month m y ds ↔ (month d = m ∧ year d = y) ∧ d ∈ ds.
Proof.
  unfold of_month. apply (list_elem_of_filter (λ d, month d = m ∧ year d = y)).
Qed.

Lemma of_month_other m y l1 r l2 :
  ¬ (month r = m ∧ year r = y) →
  of_month m y (l1 ++ r :: l2) = of_month m y (l1 ++ l2).
Proof.
  intros Hr. unfold of_month.
  by rewrite !filter_app, filter_cons_False.
Qed.

Lemma js_sum_app l1 x l2 :
  js_sum (l1 ++ x :: l2) = foldl add (add (js_sum l1) x) l2.
Proof. unfold js_sum. by rewrite foldl_app. Qed.

(** C7.  [updateStats] reads a month and a year off the clock and stores,
    as [monthlyRaised], the sum of the amounts of exactly the records
    whose [month] and [year] are these, in the order of the ledger, and
    as [totalRaised] the sum of the amounts of all; so does the
    recomputation within [addDonation].  A record of another month is a
    term of the total and not of the monthly amount. *)
Theorem monthlyRaised_sums_current_month :
  (∀ w,
     let w' := exec updateStats w in
     let current := of_month (currentMonth w) (currentYear w) (donations (app w)) in
     fst (updateStats w) = Normal ()
     ∧ donations (app w') = donations (app w)
     ∧ (∀ d, d ∈ current
             ↔ (month d = currentMonth w ∧ year d = currentYear w)
               ∧ d ∈ donations (app w))
     ∧ current `sublist_of` donations (app w)
     ∧ monthlyRaised (stats (app w')) = js_sum (amount <$> current)
     ∧ totalRaised (stats (app w')) = js_sum (amount <$> donations (app w)))
  ∧ (∀ w i,
       let w' := exec (addDonation i) w in
       monthlyRaised (stats (app w'))
       = js_sum (amount <$> of_month (appendMonth w) (appendYear w)
                              (donations (app w'))))
  ∧ (∀ m y l1 r l2,
       ¬ (month r = m ∧ year r = y) →
       monthlyRaised (compute_stats m y (l1 ++ r :: l2))
       = monthlyRaised (compute_stats m y (l1 ++ l2))
       ∧ totalRaised (compute_stats m y (l1 ++ r :: l2))
         = foldl add (add (js_sum (amount <$> l1)) (amount r)) (amount <$> l2)).
Proof.
  split; [|split].
  - intros w w' current. subst w' current. unfold exec.
    rewrite updateStats_run. cbn [fst snd]. rewrite updated_app.
    cbn [donations stats].
    split; [done|]. split; [done|].
    split; [intros d; apply of_month_elem_of|].
    split; [apply sublist_filter|].
    split; [apply monthlyRaised_compute_stats|apply totalRaised_compute_stats].
  - intros w i w'. subst w'. unfold exec. rewrite addDonation_run.
    cbn [snd]. rewrite added_app. cbn [donations stats].
    apply monthlyRaised_compute_stats.
  - intros m y l1 r l2 Hr. split.
    + by rewrite !monthlyRaised_compute_stats, of_month_other.
    + rewrite totalRaised_compute_stats, fmap_app, fmap_cons.
      apply js_sum_app.
Qed.

Lemma monthlyRaised_sums_current_month_witness :
  monthlyRaised (compute_stats 10 2026 ([november_record] ++ october_record :: []))
  = monthlyRaised (compute_stats 10 2026 ([november_record] ++ []))
  ∧ totalRaised (compute_stats 10 2026 ([november_record] ++ october_record :: []))
    = foldl add
        (add (js_sum (amount <$> [november_record])) (amount october_record))
        (amount <$> []).
Proof.
  apply (proj2 (proj2 monthlyRaised_sums_current_month)).
  intros [H _]. discriminate H.
Defined.

(** ** [resetStats] and [init] *)

Lemma localStorage_stored key value w :
  localStorage (stored key value w)
  = if available (localStorage w)
    then mkStorage true (<[key := value]> (items (localStorage w)))
    else localStorage w.
Proof. unfold stored. destruct (available (localStorage w)); reflexivity. Qed.

Lemma emptied_idemp s : emptied (emptied s) = emptied s.
Proof.
  unfold emptied. destruct (available s) eqn:Hs; cbn [available items].
  - f_equal. apply map_eq. intros k. rewrite !lookup_insert.
    repeat case_decide; congruence.
  - by rewrite Hs.
Qed.

Lemma saved_empty_localStorage w :
  app w = empty_ledger → localStorage (saved w) = emptied (localStorage w).
Proof.
  intros Hw. unfold saved, emptied. rewrite Hw. cbn [donations stats empty_ledger].
  rewrite localStorage_stored, stored_available, localStorage_stored.
  by destruct (available (localStorage w)).
Qed.

Lemma loaded_localStorage w :
  localStorage (loaded w) = emptied (localStorage w).
Proof.
  unfold loaded, emptied.
  rewrite localStorage_stored, stored_available, localStorage_stored.
  cbn [localStorage with_app].
  by destruct (available (localStorage w)).
Qed.

Lemma initialized_localStorage w :
  localStorage (updated (loaded w)) = emptied (localStorage w).
Proof.
  unfold updated. rewrite displayed_localStorage, saved_empty_localStorage.
  - cbn [localStorage with_app with_ticks].
    by rewrite loaded_localStorage, emptied_idemp.
  - cbn [app with_app]. by rewrite loaded_app.
Qed.

Lemma cleared_localStorage w :
  localStorage (cleared w) = emptied (localStorage w).
Proof.
  unfold cleared.
  rewrite notified_localStorage, displayed_localStorage,
    saved_empty_localStorage; done.
Qed.

Lemma zeros_shown_idemp els : zeros_shown (zeros_shown els) = zeros_shown els.
Proof.
  unfold zeros_shown, shown.
  destruct els as [|e0 [|e1 [|e2 els]]]; reflexivity.
Qed.

Lemma displayed_empty_statElements w :
  app w = empty_ledger →
  statElements (displayed w) = zeros_shown (statElements w).
Proof. intros Hw. by rewrite displayed_statElements, Hw. Qed.

Lemma initialized_statElements w :
  statElements (updated (loaded w)) = zeros_shown (statElements w).
Proof.
  unfold updated. rewrite displayed_empty_statElements.
  - rewrite saved_statElements. cbn [statElements with_app with_ticks].
    unfold loaded. by rewrite !stored_statElements.
  - rewrite saved_app. cbn [app with_app]. by rewrite loaded_app.
Qed.

Lemma cleared_statElements w :
  statElements (cleared w) = zeros_shown (statElements w).
Proof.
  unfold cleared. rewrite notified_statElements, displayed_empty_statElements.
  - by rewrite saved_statElements.
  - by rewrite saved_app.
Qed.

Lemma initialized_view w :
  ledger_view (updated (loaded w))
  = (empty_ledger, emptied (localStorage w), zeros_shown (statElements w)).
Proof.
  unfold ledger_view.
  by rewrite initialized_app, initialized_localStorage, initialized_statElements.
Qed.

Lemma cleared_view w :
  ledger_view (cleared w)
  = (empty_ledger, emptied (localStorage w), zeros_shown (statElements w)).
Proof.
  unfold ledger_view.
  by rewrite cleared_app, cleared_localStorage, cleared_statElements.
Qed.

Lemma history_of_empty w :
  app w = empty_ledger → getDonationHistory w = (Normal [], w).
Proof.
  intros Hw. rewrite getDonationHistory_run. unfold sorted.
  destruct w as [a s c t els ns ws]. cbn in *. by subst a.
Qed.

(** C8.  From any world, [init] and [resetStats] both complete and leave
    the same ledger, held, persisted and shown: no record, statistics all
    zero, whatever the ledger and the storage held.  Each leaves what it
    has left when called again, and after either the history is empty;
    when the storage works it holds the empty ledger. *)
Theorem reset_equivalent_to_initialize :
  ∀ w,
    let wi := exec init w in
    let wr := exec resetStats w in
    fst (init w) = Normal () ∧ fst (resetStats w) = Normal ()
    ∧ app wi = {| donations := []; stats := zero_stats |}
    ∧ app wr = {| donations := []; stats := zero_stats |}
    ∧ ledger_view wi = ledger_view wr
    ∧ ledger_view (exec init wi) = ledger_view wi
    ∧ ledger_view (exec resetStats wr) = ledger_view wr
    ∧ ledger_view (exec resetStats wi) = ledger_view wi
    ∧ ledger_view (exec init wr) = ledger_view wr
    ∧ getDonationHistory wi = (Normal [], wi)
    ∧ getDonationHistory wr = (Normal [], wr)
    ∧ (∀ kept,
         let w0 := with_localStorage (mkStorage true kept) w in
         items (localStorage (exec resetStats w0)) !! "donations"
           = Some (JsonDonations [])
         ∧ items (localStorage (exec resetStats w0)) !! "stats"
           = Some (JsonStats zero_stats)
         ∧ localStorage (exec init w0) = localStorage (exec resetStats w0)).
Proof.
  intros w wi wr. subst wi wr. unfold exec.
  rewrite !init_run, !resetStats_run. cbn [fst snd].
  rewrite !initialized_view, !cleared_view, initialized_app, cleared_app.
  rewrite !initialized_localStorage, !cleared_localStorage,
    !initialized_statElements, !cleared_statElements.
  rewrite !emptied_idemp, !zeros_shown_idemp.
  do 9 (split; [reflexivity|]).
  split; [|split].
  - apply history_of_empty, initialized_app.
  - apply history_of_empty, cleared_app.
  - intros kept.
    rewrite ?init_run, ?resetStats_run. cbn [snd].
    rewrite initialized_localStorage, cleared_localStorage.
    cbn [localStorage with_localStorage]. unfold emptied. cbn [available items].
    split; [|split; [|done]].
    + by rewrite lookup_insert_ne, lookup_insert_eq.
    + by rewrite lookup_insert_eq.
Qed.

(** ** Storage out of reach *)

Lemma stored_memory key value w : memory (stored key value w) = memory w.
Proof.
  unfold memory.
  by rewrite stored_app, stored_clock, stored_ticks, stored_statElements,
    stored_notifications.
Qed.

(** A call sees of the world what [memory] keeps. *)
Lemma step_memory o w1 w2 :
  memory w1 = memory w2 → memory (step o w1) = memory (step o w2).
Proof.
  intros H. unfold memory in H.
  injection H as Happ Hclock Hticks Hels Hnots.
  unfold memory. destruct o; cbn [step].
  - rewrite !initialized_app, !initialized_statElements, !updated_clock,
      !updated_ticks, !updated_notifications, !loaded_clock, !loaded_ticks,
      !loaded_notifications.
    by rewrite Hclock, Hticks, Hels, Hnots.
  - rewrite !added_app, !added_clock, !added_ticks, !added_statElements,
      !added_notifications.
    unfold record_of, appendMonth, appendYear.
    by rewrite Happ, Hclock, Hticks, Hels, Hnots.
  - unfold sorted. cbn. by rewrite Happ, Hclock, Hticks, Hels, Hnots.
  - rewrite !cleared_app, !cleared_clock, !cleared_ticks, !cleared_statElements,
      !cleared_notifications.
    by rewrite Hclock, Hticks, Hels, Hnots.
Qed.

Lemma result_of_memory o w1 w2 :
  memory w1 = memory w2 → result_of o w1 = result_of o w2.
Proof.
  intros H. injection H as Happ _ _ _ _.
  destruct o; cbn [result_of]; by rewrite ?Happ.
Qed.

Lemma run_memory os w1 w2 :
  memory w1 = memory w2 →
  results_of os w1 = results_of os w2
  ∧ memory (after os w1) = memory (after os w2).
Proof.
  revert w1 w2. induction os as [|o os IH]; intros w1 w2 H.
  - by rewrite !after_nil.
  - cbn [results_of]. rewrite !after_cons.
    destruct (IH (step o w1) (step o w2)) as [-> ->];
      [by apply step_memory|].
    by rewrite (result_of_memory o w1 w2).
Qed.

(** C9.  [SafeStorage] never throws: a failing write leaves a warning
    and nothing else, a failing read gives [null].  Any run of calls of
    the aggregator completes, and gives the same results and leaves the
    same memory whatever storage the page has, one that fails at every
    access included. *)
Theorem persistence_failure_is_harmless :
  (∀ key value w,
     fst (SafeStorage.setItem key value w) = Normal ()
     ∧ memory (exec (SafeStorage.setItem key value) w) = memory w)
  ∧ (∀ key kept w,
       SafeStorage.getItem key (with_localStorage (mkStorage false kept) w)
       = (Normal None,
          with_warnings (warnings w ++ [SecurityError])
            (with_localStorage (mkStorage false kept) w)))
  ∧ (∀ os w, ∃ rs, fst (run_ops os w) = Normal rs)
  ∧ (∀ os w s,
       fst (run_ops os (with_localStorage s w)) = fst (run_ops os w)
       ∧ memory (after os (with_localStorage s w)) = memory (after os w))
  ∧ (∀ os w kept,
       let broken := with_localStorage (mkStorage false kept) w in
       let working := with_localStorage (mkStorage true kept) w in
       fst (run_ops os broken) = fst (run_ops os working)
       ∧ app (after os broken) = app (after os working)
       ∧ localStorage (after os broken) = mkStorage false kept).
Proof.
  split; [|split; [|split; [|split]]].
  - intros key value w. unfold exec. rewrite setItem_run. cbn [fst snd].
    split; [done|]. apply stored_memory.
  - intros key kept w. by rewrite getItem_run.
  - intros os w. rewrite run_ops_run. eauto.
  - intros os w s. rewrite !run_ops_run. cbn [fst].
    destruct (run_memory os (with_localStorage s w) w) as [-> Hm]; done.
  - intros os w kept broken working. subst broken working.
    rewrite !run_ops_run. cbn [fst].
    destruct (run_memory os (with_localStorage (mkStorage false kept) w)
                (with_localStorage (mkStorage true kept) w)) as [-> Hm];
      [done|].
    split; [done|]. split; [by injection Hm|].
    generalize (with_localStorage (mkStorage true kept) w). intros _.
    assert (∀ w0, localStorage w0 = mkStorage false kept →
                  localStorage (after os w0) = mkStorage false kept) as Hk.
    { clear. induction os as [|o os IH]; intros w0 Hw0; [done|].
      rewrite after_cons. apply IH.
      assert (∀ k v w1, localStorage w1 = mkStorage false kept →
                localStorage (stored k v w1) = mkStorage false kept) as Hst.
      { intros k v w1 Hw1. rewrite localStorage_stored, Hw1. done. }
      destruct o; cbn [step].
      - unfold updated, loaded, saved. rewrite displayed_localStorage.
        repeat apply Hst. done.
      - unfold added, updated, saved.
        rewrite notified_localStorage, displayed_localStorage.
        repeat apply Hst. done.
      - done.
      - unfold cleared, saved.
        rewrite notified_localStorage, displayed_localStorage.
        repeat apply Hst. done. }
    by apply Hk.
Qed.

(** ** Amounts that are not numbers *)

Lemma add_NaN_l x : add NaN x = NaN.
Proof. reflexivity. Qed.

Lemma add_NaN_r x : add x NaN = NaN.
Proof. by destruct x. Qed.

Lemma foldl_add_NaN l : foldl add NaN l = NaN.
Proof. induction l as [|x l IH]; [done|]. cbn [foldl]. by rewrite add_NaN_l. Qed.

Lemma foldl_add_elem_of_NaN l acc : NaN ∈ l → foldl add acc l = NaN.
Proof.
  revert acc. induction l as [|x l IH]; intros acc Hin.
  - by apply elem_of_nil in Hin.
  - cbn [foldl]. apply elem_of_cons in Hin as [<-|Hin].
    + by rewrite add_NaN_r, foldl_add_NaN.
    + by apply IH.
Qed.

Lemma js_sum_NaN l : NaN ∈ l → js_sum l = NaN.
Proof. apply foldl_add_elem_of_NaN. Qed.

(** A record whose amount is not a number makes the total not a number,
    and so the amount of its month. *)
Lemma compute_stats_NaN m y ds r :
  r ∈ ds → amount r = NaN →
  totalRaised (compute_stats m y ds) = NaN
  ∧ (month r = m ∧ year r = y → monthlyRaised (compute_stats m y ds) = NaN).
Proof.
  intros Hin Hr. split.
  - rewrite totalRaised_compute_stats. apply js_sum_NaN.
    rewrite <- Hr. by apply list_elem_of_fmap_2.
  - intros Hmy. rewrite monthlyRaised_compute_stats. apply js_sum_NaN.
    rewrite <- Hr. apply list_elem_of_fmap_2. by apply of_month_elem_of.
Qed.

(** The records stay in the ledger, and the total stays what it is once
    not a number, along appends and readings of the history. *)
Lemma NaN_stays os w r :
  Forall (λ o, keeps_records o = true) os →
  r ∈ donations (app w) → amount r = NaN →
  totalRaised (stats (app w)) = NaN →
  r ∈ donations (app (after os w))
  ∧ totalRaised (stats (app (after os w))) = NaN.
Proof.
  intros Hos. revert w. induction Hos as [|o os Ho _ IH]; intros w Hin Hr Ht.
  - by rewrite after_nil.
  - rewrite after_cons. destruct o; try discriminate; cbn [step]; apply IH;
      try done.
    + rewrite added_app. cbn [donations]. apply elem_of_app. by left.
    + rewrite added_app. cbn [stats].
      apply (compute_stats_NaN _ _ _ r); [|done].
      apply elem_of_app. by left.
    + rewrite sorted_app. cbn [donations]. by rewrite Array_sort_perm.
Qed.

(** C10.  An append whose amount [parseFloat] does not read as a number
    is carried out like any other: the record is stored, its amount
    [NaN].  The total is [NaN] at once and stays so along any appends and
    readings of the history that follow; the monthly amount is [NaN] after
    each recomputation that reads the month and the year of the
    record.  No append is refused. *)
Theorem NaN_amount_poisons_totals :
  (∀ i w,
     coerced_amount i = NaN →
     let r := record_of i w in
     let w1 := exec (addDonation i) w in
     fst (addDonation i w) = Normal ()
     ∧ donations (app w1) = donations (app w) ++ [r]
     ∧ amount r = NaN
     ∧ totalRaised (stats (app w1)) = NaN
     ∧ (month r = appendMonth w ∧ year r = appendYear w →
        monthlyRaised (stats (app w1)) = NaN)
     ∧ ∀ os,
         Forall (λ o, keeps_records o = true) os →
         let w2 := after os w1 in
         r ∈ donations (app w2)
         ∧ totalRaised (stats (app w2)) = NaN
         ∧ (∀ j,
              month r = appendMonth w2 ∧ year r = appendYear w2 →
              monthlyRaised (stats (app (exec (addDonation j) w2))) = NaN)
         ∧ (month r = currentMonth w2 ∧ year r = currentYear w2 →
            monthlyRaised (stats (app (exec updateStats w2))) = NaN))
  ∧ (∀ j w,
       fst (addDonation j w) = Normal ()
       ∧ donations (app (exec (addDonation j) w))
         = donations (app w) ++ [record_of j w]).
Proof.
  assert (∀ j w, fst (addDonation j w) = Normal ()
                 ∧ donations (app (exec (addDonation j) w))
                   = donations (app w) ++ [record_of j w]) as Hadd.
  { intros j w. unfold exec. rewrite addDonation_run. cbn [fst snd].
    by rewrite added_app. }
  split; [|exact Hadd].
  intros i w Hi r w1.
  assert (amount r = NaN) as Hr by exact Hi.
  assert (r ∈ donations (app w1)) as Hin.
  { subst w1. rewrite (proj2 (Hadd i w)). apply elem_of_app. right. left. }
  assert (stats (app w1)
          = compute_stats (appendMonth w) (appendYear w) (donations (app w1)))
    as Hst.
  { subst w1. unfold exec. rewrite addDonation_run. cbn [snd].
    by rewrite added_app. }
  destruct (compute_stats_NaN (appendMonth w) (appendYear w)
              (donations (app w1)) r Hin Hr) as [Htot Hmon].
  rewrite <- Hst in Htot, Hmon.
  split; [apply Hadd|]. split; [apply Hadd|]. split; [done|].
  split; [done|]. split; [done|].
  intros os Hos w2.
  destruct (NaN_stays os w1 r Hos Hin Hr Htot) as [Hin2 Htot2].
  fold w2 in Hin2, Htot2.
  split; [done|]. split; [done|]. split.
  - intros j Hmy. unfold exec. rewrite addDonation_run. cbn [snd].
    rewrite added_app. cbn [stats].
    apply (compute_stats_NaN _ _ _ r); [|done..].
    apply elem_of_app. by left.
  - intros Hmy. unfold exec. rewrite updateStats_run. cbn [snd].
    rewrite updated_app. cbn [stats].
    by apply (compute_stats_NaN _ _ _ r).
Qed.

Lemma NaN_amount_poisons_totals_witness :
  let w1 := exec (addDonation not_a_number) sample_page in
  amount (record_of not_a_number sample_page) = NaN
  ∧ totalRaised (stats (app w1)) = NaN
  ∧ totalRaised
      (stats (app (after [Append donation_A; History; Append donation_B] w1)))
    = NaN.
Proof.
  intros w1.
  destruct (proj1 NaN_amount_poisons_totals not_a_number sample_page eq_refl)
    as (_ & _ & Hr & Ht & _ & Hos).
  split; [exact Hr|]. split; [exact Ht|].
  assert (Forall (λ o, keeps_records o = true)
            [Append donation_A; History; Append donation_B]) as Hkeep
    by (repeat constructor).
  exact (proj1 (proj2 (Hos _ Hkeep))).
Defined.

(** * Further properties of the tracker *)

(** ** [SafeStorage]: what is written is read back *)

Lemma warnings_stored key value w :
  warnings (stored key value w)
  = if available (localStorage w) then warnings w
    else warnings w ++ [SecurityError].
Proof. unfold stored. destruct (available (localStorage w)); reflexivity. Qed.

Lemma stored_working key value w :
  available (localStorage w) = true →
  stored key value w
  = with_localStorage
      (mkStorage true (<[key := value]> (items (localStorage w)))) w.
Proof. intros Hw. unfold stored. by rewrite Hw. Qed.

Lemma stored_failing key value w :
  available (localStorage w) = false →
  stored key value w = with_warnings (warnings w ++ [SecurityError]) w.
Proof. intros Hw. unfold stored. by rewrite Hw. Qed.

(** A value written with [SafeStorage.setItem] is what
    [SafeStorage.getItem] reads under that key afterwards, and the other
    keys read as before, when the storage works; a key never written
    reads [null].  When the storage fails, the write leaves it as it was
    and logs one warning, and every read gives [null] and logs one. *)
Theorem SafeStorage_reads_what_it_wrote :
  (∀ key value w,
     available (localStorage w) = true →
     let w' := exec (SafeStorage.setItem key value) w in
     SafeStorage.getItem key w' = (Normal (Some value), w')
     ∧ warnings w' = warnings w
     ∧ ∀ key', key' ≠ key →
         fst (SafeStorage.getItem key' w') = fst (SafeStorage.getItem key' w))
  ∧ (∀ key w,
       available (localStorage w) = true →
       items (localStorage w) !! key = None →
       SafeStorage.getItem key w = (Normal None, w))
  ∧ (∀ key value w,
       available (localStorage w) = false →
       let w' := exec (SafeStorage.setItem key value) w in
       localStorage w' = localStorage w
       ∧ warnings w' = warnings w ++ [SecurityError]
       ∧ fst (SafeStorage.getItem key w') = Normal None
       ∧ warnings (exec (SafeStorage.getItem key) w')
         = warnings w ++ [SecurityError; SecurityError]).
Proof.
  split; [|split].
  - intros key value w Hw w'. subst w'. unfold exec.
    rewrite setItem_run. cbn [snd]. rewrite stored_working by done.
    rewrite !getItem_run. cbn [localStorage with_localStorage available items
      warnings fst].
    split; [by rewrite lookup_insert_eq|]. split; [done|].
    intros key' Hne. rewrite !getItem_run.
    cbn [localStorage with_localStorage available items].
    by rewrite Hw, lookup_insert_ne.
  - intros key w Hw Hkey. by rewrite getItem_run, Hw, Hkey.
  - intros key value w Hw w'. subst w'. unfold exec.
    rewrite setItem_run. cbn [snd]. rewrite stored_failing by done.
    rewrite !getItem_run. cbn [localStorage with_warnings warnings].
    rewrite Hw. cbn [fst snd warnings with_warnings].
    by rewrite <- app_assoc.
Qed.

Lemma SafeStorage_reads_what_it_wrote_witness :
  SafeStorage.getItem "theme" (exec (SafeStorage.setItem "theme" (PlainText "dark")) sample_page)
  = (Normal (Some (PlainText "dark")),
     exec (SafeStorage.setItem "theme" (PlainText "dark")) sample_page).
Proof.
  apply (proj1 SafeStorage_reads_what_it_wrote "theme" (PlainText "dark") sample_page).
  reflexivity.
Defined.

(** ** What the tracker persists *)

Lemma persisted_available a s : available (persisted a s) = available s.
Proof. unfold persisted. by destruct (available s) eqn:Hs. Qed.

Lemma persisted_persisted a b s : persisted a (persisted b s) = persisted a s.
Proof.
  unfold persisted. destruct (available s) eqn:Hs; cbn [available items].
  - f_equal. apply map_eq. intros k. rewrite !lookup_insert.
    repeat case_decide; congruence.
  - by rewrite Hs.
Qed.

Lemma saved_localStorage w :
  localStorage (saved w) = persisted (app w) (localStorage w).
Proof.
  unfold saved, persisted.
  rewrite localStorage_stored, stored_available, localStorage_stored.
  by destruct (available (localStorage w)).
Qed.

Lemma warnings_displayed w : warnings (displayed w) = warnings w.
Proof. reflexivity. Qed.

Lemma warnings_notified m type w : warnings (notified m type w) = warnings w.
Proof. reflexivity. Qed.

Lemma warnings_saved w :
  warnings (saved w)
  = if available (localStorage w) then warnings w
    else warnings w ++ [SecurityError; SecurityError].
Proof.
  unfold saved. rewrite warnings_stored, stored_available, warnings_stored.
  destruct (available (localStorage w)); [done|]. by rewrite <- app_assoc.
Qed.

Lemma updated_localStorage w :
  localStorage (updated w) = persisted (app (updated w)) (localStorage w).
Proof.
  rewrite updated_app. unfold updated.
  by rewrite displayed_localStorage, saved_localStorage.
Qed.

Lemma warnings_updated w :
  warnings (updated w)
  = if available (localStorage w) then warnings w
    else warnings w ++ [SecurityError; SecurityError].
Proof. unfold updated. by rewrite warnings_displayed, warnings_saved. Qed.

Lemma warnings_loaded w :
  warnings (loaded w)
  = if available (localStorage w) then warnings w
    else warnings w ++ [SecurityError; SecurityError].
Proof.
  unfold loaded. rewrite warnings_stored, stored_available, warnings_stored.
  cbn [localStorage with_app warnings].
  destruct (available (localStorage w)); [done|]. by rewrite <- app_assoc.
Qed.

(** The storage and the warnings each call leaves. *)
Lemma step_localStorage o w :
  localStorage (step o w)
  = if is_mutation o then persisted (app (step o w)) (localStorage w)
    else localStorage w.
Proof.
  destruct o; cbn [step is_mutation].
  - rewrite updated_localStorage, loaded_localStorage.
    apply (persisted_persisted _ empty_ledger).
  - rewrite added_app. unfold added.
    rewrite notified_localStorage, updated_localStorage, updated_app,
      !saved_app, saved_localStorage.
    cbn [app with_app with_ticks localStorage donations].
    unfold currentMonth, currentYear. rewrite saved_clock, saved_ticks.
    cbn [clock ticks with_app with_ticks].
    apply persisted_persisted.
  - done.
  - rewrite cleared_localStorage, cleared_app. done.
Qed.

Lemma step_available o w :
  available (localStorage (step o w)) = available (localStorage w).
Proof.
  rewrite step_localStorage. destruct (is_mutation o); [|done].
  apply persisted_available.
Qed.

Lemma step_warnings o w :
  warnings (step o w)
  = if available (localStorage w) then warnings w
    else warnings w ++ replicate (writes_of o) SecurityError.
Proof.
  destruct o; cbn [step writes_of].
  - rewrite warnings_updated, warnings_loaded.
    unfold loaded. rewrite !stored_available. cbn [localStorage with_app].
    destruct (available (localStorage w)); [done|]. by rewrite <- app_assoc.
  - unfold added.
    rewrite warnings_notified, warnings_updated, warnings_saved, saved_available.
    cbn [localStorage with_app with_ticks warnings].
    destruct (available (localStorage w)); [done|]. by rewrite <- app_assoc.
  - cbn. destruct (available (localStorage w)); [done|]. by rewrite app_nil_r.
  - unfold cleared.
    rewrite warnings_notified, warnings_displayed, warnings_saved.
    cbn [localStorage with_app warnings]. done.
Qed.

Lemma persisted_lookup_other a s key :
  key ≠ "donations" → key ≠ "stats" →
  items (persisted a s) !! key = items s !! key.
Proof.
  intros Hd Hs. unfold persisted. destruct (available s); [|done].
  cbn [items]. by rewrite !lookup_insert_ne.
Qed.

Lemma after_working_storage os w :
  available (localStorage w) = true →
  available (localStorage (after os w)) = true
  ∧ warnings (after os w) = warnings w
  ∧ ∀ key, key ≠ "donations" → key ≠ "stats" →
      items (localStorage (after os w)) !! key = items (localStorage w) !! key.
Proof.
  revert w. induction os as [|o os IH]; intros w Hw; [by rewrite after_nil|].
  rewrite after_cons.
  destruct (IH (step o w)) as (Ha & Hwarn & Hkeys);
    [by rewrite step_available|].
  split; [done|]. split.
  - by rewrite Hwarn, step_warnings, Hw.
  - intros key Hd Hs. rewrite Hkeys by done. rewrite step_localStorage.
    destruct (is_mutation o); [|done]. by apply persisted_lookup_other.
Qed.

Lemma after_failing_storage os w :
  available (localStorage w) = false →
  localStorage (after os w) = localStorage w
  ∧ warnings (after os w)
    = warnings w ++ replicate (writes os) SecurityError.
Proof.
  revert w. induction os as [|o os IH]; intros w Hw.
  - rewrite after_nil. cbn. by rewrite app_nil_r.
  - rewrite after_cons.
    assert (localStorage (step o w) = localStorage w) as Hs.
    { rewrite step_localStorage. unfold persisted. rewrite Hw.
      by destruct (is_mutation o). }
    destruct (IH (step o w)) as [-> ->]; [by rewrite Hs|].
    split; [done|]. rewrite step_warnings, Hw.
    unfold writes. rewrite fmap_cons. cbn [sum_list sum_list_with].
    by rewrite replicate_add, app_assoc.
Qed.

(** While the storage works, each of [init], [addDonation] and
    [resetStats] leaves under ["donations"] and ["stats"] the JSON text of
    the ledger and of the statistics it leaves in memory.  No run of calls
    touches another key, logs a warning or loses the storage. *)
Theorem storage_mirrors_ledger :
  (∀ o w,
     is_mutation o = true →
     available (localStorage w) = true →
     let w' := exec (run_op o) w in
     items (localStorage w') !! "donations"
       = Some (JsonDonations (donations (app w')))
     ∧ items (localStorage w') !! "stats" = Some (JsonStats (stats (app w'))))
  ∧ (∀ os w,
       available (localStorage w) = true →
       let w' := after os w in
       available (localStorage w') = true
       ∧ warnings w' = warnings w
       ∧ ∀ key, key ≠ "donations" → key ≠ "stats" →
           items (localStorage w') !! key = items (localStorage w) !! key).
Proof.
  split.
  - intros o w Ho Hw w'. subst w'. rewrite exec_run_op, step_localStorage, Ho.
    unfold persisted. rewrite Hw. cbn [items].
    by rewrite lookup_insert_ne, !lookup_insert_eq.
  - intros os w Hw w'. subst w'. by apply after_working_storage.
Qed.

Lemma storage_mirrors_ledger_witness :
  let w' := exec (run_op (Append donation_A)) sample_page in
  items (localStorage w') !! "donations"
    = Some (JsonDonations (donations (app w')))
  ∧ items (localStorage w') !! "stats" = Some (JsonStats (stats (app w'))).
Proof.
  apply (proj1 storage_mirrors_ledger (Append donation_A) sample_page);
    reflexivity.
Defined.

(** When the storage fails, no run of calls changes it, and each write a
    call attempts is logged as one warning: four for [init] and for
    [addDonation], two for [resetStats], none for the history. *)
Theorem failing_storage_is_left_alone :
  ∀ os w,
    available (localStorage w) = false →
    localStorage (after os w) = localStorage w
    ∧ warnings (after os w)
      = warnings w ++ replicate (writes os) SecurityError.
Proof. intros os w. apply after_failing_storage. Qed.

Lemma failing_storage_is_left_alone_witness :
  let w := with_localStorage broken_storage sample_page in
  let os := [Initialize; Append donation_A; History; Reset] in
  localStorage (after os w) = localStorage w
  ∧ warnings (after os w) = warnings w ++ replicate (writes os) SecurityError.
Proof.
  apply (failing_storage_is_left_alone
           [Initialize; Append donation_A; History; Reset]
           (with_localStorage broken_storage sample_page)).
  reflexivity.
Defined.

(** ** What is shown *)

Lemma length_shown s els : length (shown s els) = length els.
Proof. unfold shown. by rewrite !length_insert. Qed.

Lemma shown_lookup_ge s els i : (3 ≤ i)%nat → shown s els !! i = els !! i.
Proof.
  intros Hi. unfold shown. rewrite !list_lookup_insert_ne by lia. done.
Qed.

Lemma step_statElements o w :
  statElements (step o w)
  = if is_mutation o then shown (stats (app (step o w))) (statElements w)
    else statElements w.
Proof.
  destruct o; cbn [step is_mutation].
  - by rewrite initialized_statElements, initialized_app.
  - by rewrite added_statElements, added_app.
  - done.
  - by rewrite cleared_statElements, cleared_app.
Qed.

(** After [init], [addDonation] and [resetStats] the first three
    [.stat-number] elements show the stored [monthlyRaised],
    [toolsSupported] and [contributors]; [totalRaised] is not among
    them.  When the page has fewer such elements only those there are
    are written; the elements after the third are never written, no
    element is added or removed by any run, and reading the history
    writes none. *)
Theorem counters_show_the_stats :
  (∀ o w,
     is_mutation o = true →
     statElements (exec (run_op o) w)
     = shown (stats (app (exec (run_op o) w))) (statElements w))
  ∧ (∀ s e0 e1 e2 rest,
       shown s (e0 :: e1 :: e2 :: rest)
       = Dollars (monthlyRaised s) :: Count (toolsSupported s)
         :: Count (contributors s) :: rest)
  ∧ (∀ s e0 e1,
       shown s [] = []
       ∧ shown s [e0] = [Dollars (monthlyRaised s)]
       ∧ shown s [e0; e1] = [Dollars (monthlyRaised s); Count (toolsSupported s)])
  ∧ (∀ w, statElements (exec getDonationHistory w) = statElements w)
  ∧ (∀ os w,
       length (statElements (after os w)) = length (statElements w)
       ∧ ∀ i, (3 ≤ i)%nat →
              statElements (after os w) !! i = statElements w !! i).
Proof.
  split; [|split; [|split; [|split]]].
  - intros o w Ho. by rewrite exec_run_op, step_statElements, Ho.
  - done.
  - done.
  - done.
  - induction os as [|o os IH]; intros w; [by rewrite after_nil|].
    rewrite after_cons. destruct (IH (step o w)) as [-> Hi].
    rewrite step_statElements.
    destruct (is_mutation o); [rewrite length_shown|]; (split; [done|]);
      intros i Hle; rewrite Hi by done; rewrite step_statElements.
    + destruct (is_mutation o); [by apply shown_lookup_ge|done].
    + destruct (is_mutation o); [by apply shown_lookup_ge|done].
Qed.

Lemma counters_show_the_stats_witness :
  statElements (exec (run_op (Append donation_A)) sample_page)
  = shown (stats (app (exec (run_op (Append donation_A)) sample_page)))
      (statElements sample_page).
Proof.
  apply (proj1 counters_show_the_stats (Append donation_A) sample_page).
  reflexivity.
Defined.

(** ** What is announced *)

Lemma step_notifications o w :
  ∃ new, notifications (step o w) = notifications w ++ new
         ∧ length new = (if announces o then 1 else 0)%nat.
Proof.
  destruct o; cbn [step announces].
  - exists []. by rewrite updated_notifications, loaded_notifications, app_nil_r.
  - eexists. by rewrite added_notifications.
  - exists []. by rewrite app_nil_r.
  - eexists. by rewrite cleared_notifications.
Qed.

(** [addDonation] puts one notification on the page, of type
    ["success"], for the record it has just stored last in the ledger;
    [resetStats] puts one of type ["info"]; [init] and the history put
    none.  Along any run the notifications already there stay, in order,
    and one is added for each append and each reset. *)
Theorem one_notification_per_append_and_reset :
  (∀ i w,
     let w' := exec (addDonation i) w in
     ∃ d, last (donations (app w')) = Some d
          ∧ notifications w'
            = notifications w ++ [mkNotification (DonationReceived d) "success"])
  ∧ (∀ w,
       notifications (exec resetStats w)
       = notifications w
         ++ [mkNotification (Plain "Stats reset successfully") "info"])
  ∧ (∀ w, notifications (exec init w) = notifications w)
  ∧ (∀ w, notifications (exec getDonationHistory w) = notifications w)
  ∧ (∀ os w,
       notifications w `prefix_of` notifications (after os w)
       ∧ length (notifications (after os w))
         = (length (notifications w)
            + length (filter (λ o, announces o = true) os))%nat).
Proof.
  split; [|split; [|split; [|split]]].
  - intros i w w'. subst w'. unfold exec. rewrite addDonation_run. cbn [snd].
    exists (record_of i w). rewrite added_app, added_notifications.
    cbn [donations]. by rewrite last_snoc.
  - intros w. unfold exec. rewrite resetStats_run. cbn [snd].
    apply cleared_notifications.
  - intros w. unfold exec. rewrite init_run. cbn [snd].
    by rewrite updated_notifications, loaded_notifications.
  - done.
  - induction os as [|o os IH]; intros w.
    + rewrite after_nil. cbn. split; [done|lia].
    + rewrite after_cons. destruct (IH (step o w)) as [Hpre Hlen].
      destruct (step_notifications o w) as (new & Hnew & Hn).
      split.
      * etransitivity; [|exact Hpre]. rewrite Hnew. by apply prefix_app_r.
      * rewrite Hlen, Hnew, length_app, Hn, (filter_cons _ o).
        destruct (announces o); case_decide; try done; cbn [length]; lia.
Qed.

(** ** Records are only ever added *)

Lemma step_donations o w :
  donations (app (step o w))
  ≡ₚ match o with
     | Append i => donations (app w) ++ [record_of i w]
     | History => donations (app w)
     | Initialize | Reset => []
     end.
Proof.
  destruct o; cbn [step].
  - by rewrite initialized_app.
  - by rewrite added_app.
  - rewrite sorted_app. cbn [donations]. apply Array_sort_perm.
  - by rewrite cleared_app.
Qed.

Lemma inserted_perm os w l1 l2 :
  l1 ≡ₚ l2 → inserted os w l1 ≡ₚ inserted os w l2.
Proof.
  revert w l1 l2. induction os as [|o os IH]; intros w l1 l2 H; [done|].
  cbn [inserted]. apply IH. destruct o; by rewrite ?H.
Qed.

Lemma inserted_keeps os w ledger :
  Forall (λ o, keeps_records o = true) os →
  ∃ new, inserted os w ledger = ledger ++ new
         ∧ length new = length (filter (λ o, is_append o = true) os).
Proof.
  intros Hos. revert w ledger.
  induction Hos as [|o os Ho _ IH]; intros w ledger.
  - exists []. by rewrite app_nil_r.
  - cbn [inserted]. rewrite (filter_cons _ o).
    destruct o as [|donation| |]; try discriminate; cbn [is_append];
      case_decide; try done.
    destruct (IH (exec (run_op (Append donation)) w)
                (ledger ++ [record_of donation w])) as (new & -> & Hn).
    exists (record_of donation w :: new). rewrite <- app_assoc.
    split; [done|]. cbn [length]. by rewrite Hn.
Qed.

(** The ledger is, up to the order the history puts it in, the records in
    the order of their insertion.  Along appends and readings of the
    history no record is dropped or altered: each record there was is
    there still, and the ledger has grown by one record for each
    append.  Only [init] and [resetStats] remove records, and they remove
    all. *)
Theorem ledger_is_append_only :
  (∀ os w,
     donations (app (after os w)) ≡ₚ inserted os w (donations (app w)))
  ∧ (∀ os w,
       Forall (λ o, keeps_records o = true) os →
       donations (app w) ⊆+ donations (app (after os w))
       ∧ length (donations (app (after os w)))
         = (length (donations (app w))
            + length (filter (λ o, is_append o = true) os))%nat)
  ∧ (∀ o w,
       keeps_records o = false → donations (app (exec (run_op o) w)) = []).
Proof.
  assert (∀ os w,
            donations (app (after os w)) ≡ₚ inserted os w (donations (app w)))
    as Hperm.
  { induction os as [|o os IH]; intros w; [by rewrite after_nil|].
    rewrite after_cons, IH. cbn [inserted]. rewrite exec_run_op.
    apply inserted_perm.
    rewrite step_donations. by destruct o. }
  split; [exact Hperm|]. split.
  - intros os w Hos.
    destruct (inserted_keeps os w (donations (app w)) Hos) as (new & Hnew & Hn).
    pose proof (Hperm os w) as Hp. rewrite Hnew in Hp. split.
    + rewrite Hp. apply submseteq_inserts_r. done.
    + by rewrite Hp, length_app, Hn.
  - intros o w Ho. rewrite exec_run_op.
    destruct o; try discriminate; cbn [step].
    + by rewrite initialized_app.
    + by rewrite cleared_app.
Qed.

Lemma ledger_is_append_only_witness :
  let os := [Append donation_A; History; Append donation_B] in
  donations (app sample_page) ⊆+ donations (app (after os sample_page))
  ∧ length (donations (app (after os sample_page)))
    = (length (donations (app sample_page))
       + length (filter (λ o, is_append o = true) os))%nat.
Proof.
  apply (proj1 (proj2 ledger_is_append_only)
           [Append donation_A; History; Append donation_B] sample_page).
  repeat constructor.
Defined.

(** ** Labels *)

Lemma or_default_ne s dflt : dflt ≠ "" → or_default s dflt ≠ "".
Proof. intros H. by destruct s as [[|c r]|]. Qed.

Lemma or_default_idemp s dflt :
  or_default (Some (or_default s dflt)) dflt = or_default s dflt.
Proof. destruct s as [[|c r]|]; cbn; by destruct dflt. Qed.

Lemma record_of_labelled i w : labelled (record_of i w).
Proof. unfold labelled, record_of. cbn. repeat split; by apply or_default_ne. Qed.

(** Every record [addDonation] stores has a tool, a method and a
    contributor that are not empty: a label that is missing or empty is
    replaced by ["General"], ["Unknown"] or ["Anonymous"], and a label
    that is given is stored as it is.  So has every record of the ledger
    along any run from the page as loaded. *)
Theorem records_are_labelled :
  (∀ i w,
     ∃ d, donations (app (exec (addDonation i) w)) = donations (app w) ++ [d]
          ∧ labelled d
          ∧ tool d = or_default (in_tool i) "General"
          ∧ method d = or_default (in_method i) "Unknown"
          ∧ contributor d = or_default (in_contributor i) "Anonymous")
  ∧ (∀ dflt, or_default None dflt = dflt ∧ or_default (Some "") dflt = dflt)
  ∧ (∀ s dflt, s ≠ "" → or_default (Some s) dflt = s)
  ∧ (∀ os w,
       Forall labelled (donations (app w)) →
       Forall labelled (donations (app (after os w))))
  ∧ (∀ s c els os, Forall labelled (donations (app (after os (page s c els))))).
Proof.
  assert (∀ os w,
            Forall labelled (donations (app w)) →
            Forall labelled (donations (app (after os w)))) as Hinv.
  { induction os as [|o os IH]; intros w Hw; [by rewrite after_nil|].
    rewrite after_cons. apply IH. rewrite step_donations.
    destruct o; try done.
    apply Forall_app. split; [done|].
    apply Forall_singleton, record_of_labelled. }
  split; [|split; [|split; [|split]]].
  - intros i w. exists (record_of i w). unfold exec.
    rewrite addDonation_run. cbn [snd]. rewrite added_app.
    split; [done|]. split; [apply record_of_labelled|done].
  - done.
  - intros s dflt Hs. by destruct s.
  - exact Hinv.
  - intros s c els os. apply Hinv. constructor.
Qed.

Lemma records_are_labelled_witness :
  or_default (Some "Alpha") "General" = "Alpha".
Proof.
  apply (proj1 (proj2 (proj2 records_are_labelled)) "Alpha" "General").
  discriminate.
Defined.

(** ** [manualAddDonation] *)

(** [manualAddDonation], which [window.addDonation] calls, does what
    [addDonation] does on the object made of its four arguments: the
    default it gives the contributor is the one [addDonation] gives. *)
Theorem manualAddDonation_is_addDonation :
  ∀ a t m c w,
    manualAddDonation a t m c w = addDonation (mkInput a t m c) w.
Proof.
  intros a t m c w. unfold manualAddDonation. rewrite !addDonation_run.
  f_equal. unfold added, record_of.
  cbn [in_amount in_tool in_method in_contributor].
  by rewrite or_default_idemp.
Qed.

(** ** Reading the history again *)

Lemma with_app_app w : with_app (app w) w = w.
Proof. by destruct w. Qed.

Lemma Array_sort_sorted_id l :
  newest_first_sorted l → Array_sort newest_first l = l.
Proof.
  intros Hl. apply newest_first_unique; [apply Array_sort_sorted|done|].
  intros t. apply Array_sort_created_at.
Qed.

Lemma sorted_sorted w : sorted (sorted w) = sorted w.
Proof.
  unfold sorted. cbn [app with_app donations stats].
  by rewrite Array_sort_sorted_id by apply Array_sort_sorted.
Qed.

(** The array [getDonationHistory] returns is the ledger as the call
    leaves it.  A second call right after the first returns the same
    records and changes nothing, and so does a call on a ledger that is in
    the order of the history already. *)
Theorem history_read_twice :
  ∀ w,
    let w1 := exec getDonationHistory w in
    fst (getDonationHistory w) = Normal (donations (app w1))
    ∧ getDonationHistory w1 = (fst (getDonationHistory w), w1)
    ∧ (newest_first_sorted (donations (app w)) →
       getDonationHistory w = (Normal (donations (app w)), w)).
Proof.
  intros w w1. subst w1. unfold exec. rewrite !getDonationHistory_run.
  cbn [fst snd]. rewrite sorted_sorted. split; [done|]. split; [done|].
  intros Hs. unfold sorted. cbn [app with_app donations].
  rewrite Array_sort_sorted_id by done.
  replace {| donations := donations (app w); stats := stats (app w) |}
    with (app w) by by destruct (app w).
  by rewrite with_app_app.
Qed.

Lemma history_read_twice_witness :
  getDonationHistory newest_first_world
  = (Normal (record_at <$> [6; 5; 4; 3; 2; 1]), newest_first_world).
Proof.
  apply (proj2 (proj2 (history_read_twice newest_first_world))).
  unfold newest_first_sorted, newest_first_world.
  cbn [app with_app donations fmap list_fmap].
  repeat first [apply SSorted_nil | apply SSorted_cons
               | apply Forall_nil_2 | apply Forall_cons_2];
    cbn [timestamp record_at]; lia.
Defined.

(** ** How the counts move *)

Lemma size_list_to_set_le (l : list string) :
  (size (list_to_set l : gset string) ≤ length l)%nat.
Proof.
  induction l as [|x l IH]; [done|].
  rewrite list_to_set_cons, size_union_alt, size_singleton. cbn [length].
  assert (size ((list_to_set l : gset string) ∖ {[x]})
          ≤ size (list_to_set l : gset string))%nat
    by (apply subseteq_size; intros z; rewrite elem_of_difference; tauto).
  lia.
Qed.

Lemma size_list_to_set_snoc (l : list string) x :
  size (list_to_set (l ++ [x]) : gset string)
  = (if decide (x ∈ l) then size (list_to_set l : gset string)
     else S (size (list_to_set l : gset string))).
Proof.
  rewrite list_to_set_snoc_L. case_decide as Hx.
  - f_equal. apply set_eq. intros y.
    rewrite elem_of_union, elem_of_singleton, !elem_of_list_to_set.
    split; [intros [?| ->]; done|by left].
  - rewrite size_union, size_singleton; [lia|].
    intros y. rewrite elem_of_list_to_set, elem_of_singleton.
    intros Hy ->. done.
Qed.

Lemma size_list_to_set_perm (l k : list string) :
  l ≡ₚ k → size (list_to_set l : gset string) = size (list_to_set k : gset string).
Proof.
  intros H. f_equal. apply set_eq. intros x.
  by rewrite !elem_of_list_to_set, H.
Qed.

Lemma named_tools_snoc ds d :
  named_tools (ds ++ [d])
  = named_tools ds ++ (if decide (tool d = "General") then [] else [tool d]).
Proof.
  unfold named_tools. rewrite fmap_app, filter_app. f_equal.
  cbn [fmap list_fmap]. rewrite (filter_cons _ (tool d)), filter_nil.
  repeat case_decide; done.
Qed.

(** [toolsSupported] and [contributors] do not exceed the number of
    records, and [contributors] is 0 only for the empty ledger.  One more
    record leaves each where it is or raises it by one: [contributors]
    rises exactly when the contributor is new, [toolsSupported] exactly
    when the tool is new and is not ["General"]. *)
Theorem counts_grow_by_at_most_one :
  ∀ m y ds d,
    let s := compute_stats m y ds in
    let s' := compute_stats m y (ds ++ [d]) in
    (toolsSupported s ≤ length ds)%nat
    ∧ (contributors s ≤ length ds)%nat
    ∧ (contributors s = 0%nat ↔ ds = [])
    ∧ contributors s'
      = (if decide (contributor d ∈ contributor <$> ds)
         then contributors s else S (contributors s))
    ∧ toolsSupported s'
      = (if decide (tool d = "General" ∨ tool d ∈ tool <$> ds)
         then toolsSupported s else S (toolsSupported s)).
Proof.
  intros m y ds d s s'. subst s s'.
  rewrite !toolsSupported_compute_stats, !contributors_compute_stats.
  unfold named_contributors. split; [|split; [|split; [|split]]].
  - etransitivity; [apply size_list_to_set_le|].
    unfold named_tools. etransitivity; [apply length_filter|].
    by rewrite length_fmap.
  - etransitivity; [apply size_list_to_set_le|]. by rewrite length_fmap.
  - rewrite size_empty_iff. split.
    + intros He. destruct ds as [|d0 ds]; [done|].
      exfalso. apply (not_elem_of_empty (C:=gset string) (contributor d0)).
      rewrite <- He. apply elem_of_list_to_set. left.
    + by intros ->.
  - rewrite fmap_app. cbn [fmap list_fmap]. apply size_list_to_set_snoc.
  - rewrite named_tools_snoc. case_decide as Hg.
    + rewrite app_nil_r. by rewrite decide_True by by left.
    + rewrite size_list_to_set_snoc.
      assert (tool d ∈ named_tools ds ↔ tool d ∈ tool <$> ds) as Hin.
      { unfold named_tools.
        rewrite (list_elem_of_filter (λ t, t ≠ "General")). tauto. }
      repeat case_decide; try done; tauto.
Qed.

Lemma counts_grow_by_at_most_one_witness :
  contributors (compute_stats 10 2026 []) = 0%nat.
Proof.
  apply (proj2 (proj1 (proj2 (proj2
           (counts_grow_by_at_most_one 10 2026 [] october_record))))).
  reflexivity.
Defined.

(** [toolsSupported] and [contributors] are the same for two orders of
    the same records: the order the history leaves the ledger in does
    not change what the next recomputation counts. *)
Theorem counts_do_not_depend_on_order :
  (∀ m y ds ds',
     ds ≡ₚ ds' →
     toolsSupported (compute_stats m y ds) = toolsSupported (compute_stats m y ds')
     ∧ contributors (compute_stats m y ds) = contributors (compute_stats m y ds'))
  ∧ (∀ m y w,
       let ds := donations (app w) in
       let ds' := donations (app (exec getDonationHistory w)) in
       toolsSupported (compute_stats m y ds') = toolsSupported (compute_stats m y ds)
       ∧ contributors (compute_stats m y ds') = contributors (compute_stats m y ds)).
Proof.
  assert (∀ m y ds ds',
     ds ≡ₚ ds' →
     toolsSupported (compute_stats m y ds) = toolsSupported (compute_stats m y ds')
     ∧ contributors (compute_stats m y ds) = contributors (compute_stats m y ds'))
    as Hperm.
  { intros m y ds ds' H.
    rewrite !toolsSupported_compute_stats, !contributors_compute_stats.
    unfold named_tools, named_contributors.
    split; apply size_list_to_set_perm; by rewrite H. }
  split; [exact Hperm|].
  intros m y w ds ds'. subst ds ds'. apply Hperm.
  change (donations (app (exec getDonationHistory w)))
    with (Array_sort newest_first (donations (app w))).
  apply Array_sort_perm.
Qed.

Lemma counts_do_not_depend_on_order_witness :
  toolsSupported (compute_stats 10 2026 [october_record; november_record])
  = toolsSupported (compute_stats 10 2026 [november_record; october_record])
  ∧ contributors (compute_stats 10 2026 [october_record; november_record])
    = contributors (compute_stats 10 2026 [november_record; october_record]).
Proof.
  apply (proj1 counts_do_not_depend_on_order).
  apply Permutation_swap.
Defined.

(** ** A ledger of one month *)

Lemma of_month_all m y ds :
  Forall (λ d, month d = m ∧ year d = y) ds → of_month m y ds = ds.
Proof.
  unfold of_month. induction 1 as [|d ds Hd _ IH]; [done|].
  by rewrite filter_cons_True, IH.
Qed.

Lemma of_month_none m y ds :
  Forall (λ d, ¬ (month d = m ∧ year d = y)) ds → of_month m y ds = [].
Proof.
  unfold of_month. induction 1 as [|d ds Hd _ IH]; [done|].
  by rewrite filter_cons_False, IH.
Qed.

Lemma records_of_month inputs w m y :
  (∀ n, getMonth (clock w n) = m ∧ getFullYear (clock w n) = y) →
  Forall (λ d, month d = m ∧ year d = y) (records_of inputs w).
Proof.
  revert w. induction inputs as [|i inputs IH]; intros w Hc; [constructor|].
  cbn [records_of]. constructor.
  - unfold record_of. cbn. split; apply Hc.
  - apply IH. intros n. rewrite added_clock. apply Hc.
Qed.

(** When every record is of the month and the year [updateStats] reads,
    [monthlyRaised] is [totalRaised]; when none is, [monthlyRaised] is
    0.  So after [init] and any appends on a clock that stays within one
    month the two amounts are the same. *)
Theorem monthlyRaised_within_one_month :
  (∀ w,
     let w' := exec updateStats w in
     (Forall (λ d, month d = currentMonth w ∧ year d = currentYear w)
        (donations (app w)) →
      monthlyRaised (stats (app w')) = totalRaised (stats (app w')))
     ∧ (Forall (λ d, ¬ (month d = currentMonth w ∧ year d = currentYear w))
          (donations (app w)) →
        monthlyRaised (stats (app w')) = zero))
  ∧ (∀ w inputs m y,
       (∀ n, getMonth (clock w n) = m ∧ getFullYear (clock w n) = y) →
       let w' := after (Initialize :: (Append <$> inputs)) w in
       monthlyRaised (stats (app w')) = totalRaised (stats (app w'))).
Proof.
  split.
  - intros w w'. subst w'. unfold exec. rewrite updateStats_run. cbn [snd].
    rewrite updated_app. cbn [stats].
    rewrite monthlyRaised_compute_stats, totalRaised_compute_stats.
    split; intros H.
    + by rewrite of_month_all.
    + by rewrite of_month_none.
  - intros w inputs m y Hc w'. subst w'. rewrite after_cons.
    induction inputs as [|i inputs _] using rev_ind.
    + cbn [fmap list_fmap]. rewrite after_nil. cbn [step].
      by rewrite initialized_app.
    + rewrite fmap_app. cbn [fmap list_fmap]. rewrite after_snoc. cbn [step].
      rewrite added_app. cbn [stats].
      rewrite monthlyRaised_compute_stats, totalRaised_compute_stats.
      rewrite of_month_all; [done|].
      assert (∀ n, getMonth (clock (step Initialize w) n) = m
                   ∧ getFullYear (clock (step Initialize w) n) = y) as Hc0.
      { intros n. cbn [step]. rewrite updated_clock, loaded_clock. apply Hc. }
      assert (∀ os w0, clock (after os w0) = clock w0) as Hclock.
      { clear. induction os as [|o os IH]; intros w0; [done|].
        rewrite after_cons, IH. destruct o; cbn [step].
        - by rewrite updated_clock, loaded_clock.
        - apply added_clock.
        - done.
        - apply cleared_clock. }
      unfold appendMonth, appendYear. rewrite Hclock.
      rewrite (proj1 (Hc0 _)), (proj2 (Hc0 _)).
      rewrite donations_after_appends. cbn [step]. rewrite initialized_app.
      cbn [donations List.app]. apply Forall_app. split.
      * by apply records_of_month.
      * apply Forall_singleton. unfold record_of. cbn.
        rewrite Hclock. split; apply Hc0.
Qed.

Lemma monthlyRaised_within_one_month_witness :
  let w' := after (Initialize :: (Append <$> [donation_A; donation_B])) sample_page in
  monthlyRaised (stats (app w')) = totalRaised (stats (app w')).
Proof.
  apply (proj2 monthlyRaised_within_one_month sample_page
           [donation_A; donation_B] 10 2026).
  intros n. split; reflexivity.
Defined.

(** * The theme *)

Ltac unfold_page :=
  unfold mbind, PageJs_bind, mret, PageJs_ret, get_page, modify_page,
    on_world in *.

#[local] Arguments themed : simpl never.
#[local] Arguments toggled : simpl never.
#[local] Arguments bound : simpl never.

Lemma with_themeToggle_id p : with_themeToggle (themeToggle p) p = p.
Proof. by destruct p. Qed.

Lemma setTheme_run t p : ThemeManager.setTheme t p = (Normal (), themed t p).
Proof.
  unfold ThemeManager.setTheme, themed, icon_for. unfold_page.
  cbn [world with_theme with_dataTheme]. rewrite setItem_run.
  cbn [themeToggle with_world with_dataTheme with_theme].
  destruct (themeToggle p) as [b|] eqn:Hb; [done|].
  f_equal. cbn in Hb. by destruct p; cbn in *; subst.
Qed.

Lemma toggleTheme_run p : ThemeManager.toggleTheme p = (Normal (), toggled p).
Proof.
  unfold ThemeManager.toggleTheme, toggled, other_theme.
  unfold mbind, PageJs_bind, get_page at 1.
  unfold mbind, PageJs_bind. rewrite setTheme_run. reflexivity.
Qed.

Lemma bindEvents_run p : ThemeManager.bindEvents p = (Normal (), bound p).
Proof.
  unfold ThemeManager.bindEvents, bound. unfold_page.
  destruct (themeToggle p) as [b|] eqn:Hb; [done|].
  f_equal. rewrite <- Hb. symmetry. apply with_themeToggle_id.
Qed.

Lemma init_theme_run p :
  ThemeManager.init p = (Normal (), bound (themed (theme p) p)).
Proof.
  unfold ThemeManager.init. unfold mbind, PageJs_bind, get_page at 1.
  unfold mbind, PageJs_bind. by rewrite setTheme_run, bindEvents_run.
Qed.

Section ThemedFrame.

Variables (t : string) (p : Page).

Lemma themed_theme : theme (themed t p) = t.
Proof. reflexivity. Qed.

Lemma themed_dataTheme : dataTheme (themed t p) = Some t.
Proof. reflexivity. Qed.

Lemma themed_world : world (themed t p) = stored "theme" (PlainText t) (world p).
Proof. reflexivity. Qed.

Lemma themed_themeToggle :
  themeToggle (themed t p)
  = match themeToggle p with
    | Some b => Some {| textContent := icon_for t;
                        clickListeners := clickListeners b |}
    | None => None
    end.
Proof. reflexivity. Qed.

Lemma themed_modals : modals (themed t p) = modals p.
Proof. reflexivity. Qed.

End ThemedFrame.

Lemma themed_in_step t p : theme_in_step (themed t p).
Proof.
  unfold theme_in_step.
  rewrite themed_theme, themed_dataTheme, themed_world, themed_themeToggle.
  split; [done|]. split.
  - intros b Hb. destruct (themeToggle p); [|done]. by injection Hb as <-.
  - rewrite stored_available. intros Hw. rewrite stored_working by done.
    cbn [localStorage with_localStorage items]. apply lookup_insert_eq.
Qed.

Lemma other_theme_light_or_dark t :
  other_theme t = "light" ∨ other_theme t = "dark".
Proof. unfold other_theme. case_decide; auto. Qed.

Lemma other_theme_twice t :
  other_theme (other_theme t) = (if decide (t = "light") then "light" else "dark").
Proof. unfold other_theme. by repeat case_decide. Qed.

(** [toggleTheme] goes from ["light"] to ["dark"] and from any other
    theme to ["light"], and says so in one notification; it completes
    whether the storage works or not.  Two toggles give back the theme
    there was when it was ["light"] or ["dark"], and ["dark"] from any
    other. *)
Theorem toggleTheme_switches :
  ∀ p,
    let p1 := exec_page ThemeManager.toggleTheme p in
    let p2 := exec_page ThemeManager.toggleTheme p1 in
    fst (ThemeManager.toggleTheme p) = Normal ()
    ∧ theme p1 = (if decide (theme p = "light") then "dark" else "light")
    ∧ notifications (world p1)
      = notifications (world p)
        ++ [mkNotification (Plain ("Switched to " +:+ theme p1 +:+ " mode"))
              "success"]
    ∧ theme p2 = (if decide (theme p = "light") then "light" else "dark")
    ∧ (theme p = "light" ∨ theme p = "dark" → theme p2 = theme p)
    ∧ (theme p2 = theme p → theme p = "light" ∨ theme p = "dark").
Proof.
  intros p p1 p2. subst p1 p2. unfold exec_page.
  rewrite !toggleTheme_run. cbn [fst snd].
  assert (∀ q, theme (toggled q) = other_theme (theme q)) as Ht by done.
  rewrite !Ht, other_theme_twice.
  split; [done|]. split; [done|]. split.
  { unfold toggled. cbn [world with_world].
    by rewrite notified_notifications, themed_world, stored_notifications. }
  split; [done|]. split.
  - intros [H|H]; rewrite H; by repeat case_decide.
  - case_decide as H; intros H'; [by left|by right].
Qed.

Lemma toggleTheme_switches_witness :
  theme (exec_page ThemeManager.toggleTheme
           (exec_page ThemeManager.toggleTheme sample_theme_page))
  = theme sample_theme_page.
Proof.
  apply (proj1 (proj2 (proj2 (proj2 (proj2 (toggleTheme_switches sample_theme_page)))))).
  by left.
Defined.

Lemma toggled_in_step p : theme_in_step (toggled p).
Proof.
  pose proof (themed_in_step (other_theme (theme p)) p) as (Hd & Hb & Hs).
  unfold toggled. split; [exact Hd|]. split; [exact Hb|]. exact Hs.
Qed.

Lemma bound_in_step p : theme_in_step p → theme_in_step (bound p).
Proof.
  intros (Hd & Hb & Hs). split; [exact Hd|]. split; [|exact Hs].
  intros b. unfold bound. cbn [themeToggle with_themeToggle theme].
  destruct (themeToggle p) as [b0|] eqn:Hb0; [|done].
  intros H. injection H as <-. cbn. by apply Hb.
Qed.

Lemma after_keeps_theme os w :
  available (localStorage (after os w)) = available (localStorage w)
  ∧ (available (localStorage w) = true →
     items (localStorage (after os w)) !! "theme"
     = items (localStorage w) !! "theme").
Proof.
  destruct (available (localStorage w)) eqn:Hw.
  - destruct (after_working_storage os w Hw) as (Ha & _ & Hk).
    split; [done|]. intros _. by apply Hk.
  - destruct (after_failing_storage os w Hw) as [Hs _].
    split; [by rewrite Hs|done].
Qed.

(** [setTheme] puts the theme in [AppState], on the document element and,
    when the storage works, under the key ["theme"], and gives the
    button the sun for ["dark"] and the moon for any other theme; it
    leaves the ledger, the counters and the notifications as they
    are.  When the storage fails the theme changes all the same and one
    warning is logged.  After [setTheme], [toggleTheme] and [init] these
    places agree, and no run of the tracker makes them disagree. *)
Theorem theme_is_kept_in_step :
  (∀ t p,
     let p' := exec_page (ThemeManager.setTheme t) p in
     fst (ThemeManager.setTheme t p) = Normal ()
     ∧ theme p' = t
     ∧ theme_in_step p'
     ∧ memory (world p') = memory (world p)
     ∧ modals p' = modals p)
  ∧ (∀ t p,
       available (localStorage (world p)) = false →
       let p' := exec_page (ThemeManager.setTheme t) p in
       theme p' = t ∧ dataTheme p' = Some t
       ∧ localStorage (world p') = localStorage (world p)
       ∧ warnings (world p') = warnings (world p) ++ [SecurityError])
  ∧ (∀ p, theme_in_step (exec_page ThemeManager.toggleTheme p))
  ∧ (∀ p,
       theme_in_step (exec_page ThemeManager.init p)
       ∧ theme (exec_page ThemeManager.init p) = theme p)
  ∧ (∀ p os,
       theme_in_step p → theme_in_step (with_world (after os (world p)) p)).
Proof.
  split; [|split; [|split; [|split]]].
  - intros t p p'. subst p'. unfold exec_page. rewrite setTheme_run.
    cbn [fst snd]. split; [done|]. split; [done|].
    split; [apply themed_in_step|]. split; [|done].
    rewrite themed_world. unfold memory.
    by rewrite stored_app, stored_clock, stored_ticks, stored_statElements,
      stored_notifications.
  - intros t p Hw p'. subst p'. unfold exec_page. rewrite setTheme_run.
    cbn [snd]. rewrite themed_theme, themed_dataTheme, themed_world.
    by rewrite stored_failing.
  - intros p. unfold exec_page. rewrite toggleTheme_run. apply toggled_in_step.
  - intros p. unfold exec_page. rewrite init_theme_run. cbn [snd].
    split; [|done]. apply bound_in_step, themed_in_step.
  - intros p os (Hd & Hb & Hs). split; [exact Hd|]. split; [exact Hb|].
    cbn [world with_world theme].
    destruct (after_keeps_theme os (world p)) as [-> Hk].
    intros Ha. rewrite Hk by done. by apply Hs.
Qed.

Lemma theme_is_kept_in_step_witness :
  let p := exec_page (ThemeManager.setTheme "dark") sample_theme_page in
  theme_in_step
    (with_world (after [Initialize; Append donation_A; Reset] (world p)) p).
Proof.
  intros p.
  apply (proj2 (proj2 (proj2 (proj2 theme_is_kept_in_step)))).
  apply (proj1 theme_is_kept_in_step "dark" sample_theme_page).
Defined.

(** ** Clicks on the theme button *)

Lemma repeatedly_S n p :
  repeatedly (S n) ThemeManager.toggleTheme p
  = repeatedly n ThemeManager.toggleTheme (toggled p).
Proof.
  cbn [repeatedly]. unfold mbind, PageJs_bind at 1.
  by rewrite toggleTheme_run.
Qed.

Lemma toggled_themeToggle p :
  themeToggle (toggled p)
  = match themeToggle p with
    | Some b => Some {| textContent := icon_for (other_theme (theme p));
                        clickListeners := clickListeners b |}
    | None => None
    end.
Proof. reflexivity. Qed.

Lemma toggled_theme p : theme (toggled p) = other_theme (theme p).
Proof. reflexivity. Qed.

Lemma toggled_notifications p :
  length (notifications (world (toggled p)))
  = S (length (notifications (world p))).
Proof.
  unfold toggled. cbn [world with_world].
  rewrite notified_notifications, themed_world, stored_notifications.
  rewrite length_app. cbn. lia.
Qed.

Lemma initialized_themeToggle p b :
  themeToggle p = Some b →
  themeToggle (bound (themed (theme p) p))
  = Some {| textContent := icon_for (theme p);
            clickListeners := S (clickListeners b) |}.
Proof.
  intros Hb. unfold bound. cbn [themeToggle with_themeToggle].
  by rewrite themed_themeToggle, Hb.
Qed.

(** Each run of [ThemeManager.init] binds one more listener to the
    clicks of the theme button, and a click runs [toggleTheme] once for
    each listener bound.  With one listener a click switches the theme;
    with two, as after two runs of [init], a click on a page whose theme
    is ["light"] or ["dark"] shows two notifications and leaves the theme
    as it was.  On a page without the button [init] binds nothing. *)
Theorem one_toggle_per_listener :
  (∀ p b,
     themeToggle p = Some b →
     ∃ b', themeToggle (exec_page ThemeManager.init p) = Some b'
           ∧ clickListeners b' = S (clickListeners b))
  ∧ (∀ p,
       themeToggle p = None →
       themeToggle (exec_page ThemeManager.init p) = None
       ∧ click_themeToggle p = (Normal (), p))
  ∧ (∀ p b,
       themeToggle p = Some b → clickListeners b = 1%nat →
       click_themeToggle p = ThemeManager.toggleTheme p)
  ∧ (∀ p b,
       themeToggle p = Some b → clickListeners b = 2%nat →
       theme p = "light" ∨ theme p = "dark" →
       let p' := exec_page click_themeToggle p in
       fst (click_themeToggle p) = Normal ()
       ∧ theme p' = theme p
       ∧ dataTheme p' = Some (theme p)
       ∧ length (notifications (world p'))
         = S (S (length (notifications (world p)))))
  ∧ (∀ p b,
       themeToggle p = Some b → clickListeners b = 0%nat →
       theme p = "light" ∨ theme p = "dark" →
       let p2 := exec_page ThemeManager.init (exec_page ThemeManager.init p) in
       theme (exec_page click_themeToggle p2) = theme p).
Proof.
  assert (∀ p b,
       themeToggle p = Some b → clickListeners b = 2%nat →
       theme p = "light" ∨ theme p = "dark" →
       click_themeToggle p = (Normal (), toggled (toggled p))
       ∧ theme (toggled (toggled p)) = theme p) as Htwo.
  { intros p b Hb Hn Ht. unfold click_themeToggle.
    unfold mbind, PageJs_bind, get_page at 1. rewrite Hb, Hn.
    rewrite !repeatedly_S. split; [done|].
    rewrite !toggled_theme, other_theme_twice.
    destruct Ht as [-> | ->]; by repeat case_decide. }
  split; [|split; [|split; [|split]]].
  - intros p b Hb. unfold exec_page. rewrite init_theme_run. cbn [snd].
    rewrite (initialized_themeToggle p b Hb). by eexists.
  - intros p Hb. unfold exec_page. rewrite init_theme_run. cbn [snd].
    split.
    + unfold bound. cbn [themeToggle with_themeToggle].
      by rewrite themed_themeToggle, Hb.
    + unfold click_themeToggle. unfold mbind, PageJs_bind, get_page at 1.
      by rewrite Hb.
  - intros p b Hb Hn. unfold click_themeToggle.
    unfold mbind, PageJs_bind, get_page at 1. rewrite Hb, Hn.
    rewrite repeatedly_S, toggleTheme_run. done.
  - intros p b Hb Hn Ht p'. subst p'. unfold exec_page.
    destruct (Htwo p b Hb Hn Ht) as [-> Hth]. cbn [fst snd].
    split; [done|]. split; [done|]. split.
    + destruct (toggled_in_step (toggled p)) as [-> _]. by rewrite Hth.
    + by rewrite !toggled_notifications.
  - intros p b Hb Hn Ht p2. subst p2. unfold exec_page.
    rewrite !init_theme_run. cbn [snd].
    set (p2 := bound (themed (theme (bound (themed (theme p) p)))
                        (bound (themed (theme p) p)))).
    assert (theme p2 = theme p) as Hth by done.
    assert (∃ b2, themeToggle p2 = Some b2 ∧ clickListeners b2 = 2%nat)
      as (b2 & Hb2 & Hn2).
    { subst p2.
      rewrite (initialized_themeToggle _ _ (initialized_themeToggle p b Hb)).
      eexists. split; [done|]. cbn. by rewrite Hn. }
    destruct (Htwo p2 b2 Hb2 Hn2) as [-> Hth2]; [by rewrite Hth|].
    cbn [snd]. by rewrite Hth2.
Qed.

Lemma one_toggle_per_listener_witness :
  let p2 := exec_page ThemeManager.init
              (exec_page ThemeManager.init sample_theme_page) in
  theme (exec_page click_themeToggle p2) = theme sample_theme_page.
Proof.
  apply (proj2 (proj2 (proj2 (proj2 one_toggle_per_listener)))
           sample_theme_page {| textContent := Label ""; clickListeners := 0 |}).
  - reflexivity.
  - reflexivity.
  - by left.
Defined.

(** * The statistics window *)

#[local] Arguments viewed : simpl never.

Lemma createModal_run id title content p :
  ToolModalManager.createModal id title content p
  = (Normal (length (ToolModalManager.remove_first id (modals p))),
     with_modals
       (ToolModalManager.remove_first id (modals p)
          ++ [mkModal id title content false 0]) p).
Proof.
  unfold ToolModalManager.createModal. unfold_page.
  cbn [modals with_modals]. rewrite length_app. cbn [length].
  by rewrite Nat.add_1_r.
Qed.

Lemma showModal_last l m p :
  modals p = l ++ [m] →
  ToolModalManager.showModal (length l) p
  = (Normal (),
     with_bodyOverflow "hidden"
       (with_modals
          (l ++ [mkModal (modal_id m) (modal_title m) (modal_content m) true
                   (S (outsideClickListeners m))]) p)).
Proof.
  intros Hp. unfold ToolModalManager.showModal. unfold_page. rewrite Hp.
  rewrite <- (Nat.add_0_r (length l)) at 1. by rewrite alter_app_r.
Qed.

Lemma page_bind_normal {A B} (m : PageJs A) (f : A → PageJs B) p a p' :
  m p = (Normal a, p') → (m ≫= f) p = f a p'.
Proof. intros H. unfold mbind, PageJs_bind. by rewrite H. Qed.

Lemma on_world_normal {A} (m : Js A) p a w' :
  m (world p) = (Normal a, w') → on_world m p = (Normal a, with_world w' p).
Proof. intros H. unfold on_world. by rewrite H. Qed.

Lemma viewStats_run p : viewStats p = (Normal (), viewed p).
Proof.
  unfold viewStats.
  erewrite page_bind_normal by (apply on_world_normal; reflexivity).
  erewrite page_bind_normal
    by (apply on_world_normal; apply getDonationHistory_run).
  erewrite page_bind_normal by apply createModal_run.
  erewrite showModal_last by reflexivity.
  unfold viewed, stats_modal, recent_five.
  cbn [modal_id modal_title modal_content outsideClickListeners with_modals
    with_world world modals app stats].
  rewrite sorted_app. cbn [donations stats]. reflexivity.
Qed.

Section RecentFive.

Variable ds : list Donation.

Lemma recent_five_length : length (recent_five ds) = min 5 (length ds).
Proof.
  unfold recent_five. by rewrite length_take, (Permutation_length (Array_sort_perm ds)).
Qed.

Lemma recent_five_split :
  recent_five ds ++ drop 5 (Array_sort newest_first ds)
  = Array_sort newest_first ds.
Proof. apply take_drop. Qed.

Lemma recent_five_sorted : newest_first_sorted (recent_five ds).
Proof.
  pose proof (Array_sort_sorted ds) as Hs. rewrite <- recent_five_split in Hs.
  by apply StronglySorted_app_1_l in Hs.
Qed.

Lemma recent_five_newest d d' :
  d ∈ recent_five ds → d' ∈ drop 5 (Array_sort newest_first ds) →
  timestamp d' ≤ timestamp d.
Proof.
  intros Hd Hd'. pose proof (Array_sort_sorted ds) as Hs.
  rewrite <- recent_five_split in Hs.
  exact (StronglySorted_app_1_elem_of _ _ _ _ _ Hs Hd Hd').
Qed.

Lemma recent_five_nil : recent_five ds = [] ↔ ds = [].
Proof.
  split; [|by intros ->].
  intros H. apply (f_equal length) in H. rewrite recent_five_length in H.
  destruct ds; [done|]. cbn in H. lia.
Qed.

End RecentFive.

(** [viewStats] opens, last in the body, a window of id [statsModal]
    that shows the stored statistics and at most five records: the first
    five of the history, that is the newest ones, newest first, no record
    left out being newer than one listed; a ledger with no record gets
    the "No donations" paragraph instead of a list.  As the history is
    read, the ledger is left in the order of the history. *)
Theorem viewStats_lists_the_five_newest :
  ∀ p,
    let p' := exec_page viewStats p in
    let ds := donations (app (world p)) in
    let recent := recent_five ds in
    let others := drop 5 (Array_sort newest_first ds) in
    fst (viewStats p) = Normal ()
    ∧ last (modals p')
      = Some {| modal_id := "statsModal";
                modal_title := "Donation Statistics";
                modal_content :=
                  StatsView (stats (app (world p)))
                    (if decide (ds = []) then NoDonations else RecentList recent);
                show := true;
                outsideClickListeners := 1 |}
    ∧ bodyOverflow p' = "hidden"
    ∧ length recent = min 5 (length ds)
    ∧ newest_first_sorted recent
    ∧ recent ++ others ≡ₚ ds
    ∧ (∀ d d', d ∈ recent → d' ∈ others → timestamp d' ≤ timestamp d)
    ∧ (∀ t, created_at t (recent ++ others) = created_at t ds)
    ∧ app (world p')
      = {| donations := recent ++ others; stats := stats (app (world p)) |}
    ∧ theme p' = theme p.
Proof.
  intros p p' ds recent others. subst p' recent others. unfold exec_page.
  rewrite viewStats_run. cbn [fst snd]. split; [done|]. split.
  { unfold viewed. cbn [modals with_bodyOverflow with_modals].
    rewrite last_snoc. unfold stats_modal. fold ds. do 3 f_equal.
    case_decide as Hds.
    - by rewrite (proj2 (recent_five_nil ds) Hds).
    - destruct (recent_five ds) eqn:Hr; [|done].
      exfalso. apply Hds. by apply (proj1 (recent_five_nil ds)). }
  split; [done|]. split; [apply recent_five_length|].
  split; [apply recent_five_sorted|].
  rewrite recent_five_split.
  split; [apply Array_sort_perm|].
  split; [apply recent_five_newest|].
  split; [intros t; apply Array_sort_created_at|].
  split; [|done].
  unfold viewed. cbn [world with_bodyOverflow with_modals with_world].
  apply sorted_app.
Qed.

Lemma viewStats_lists_the_five_newest_witness :
  timestamp (record_at 1) ≤ timestamp (record_at 2).
Proof.
  pose proof (viewStats_lists_the_five_newest six_records_page) as H.
  cbv zeta in H.
  apply (proj1 (proj2 (proj2 (proj2 (proj2 (proj2 (proj2 H))))))).
  - vm_compute. repeat constructor.
  - vm_compute. constructor.
Defined.

(** ** One window of each id *)

Lemma remove_first_not_in id l :
  id ∉ (modal_id <$> l) → ToolModalManager.remove_first id l = l.
Proof.
  induction l as [|m l IH]; [done|]. cbn [ToolModalManager.remove_first].
  rewrite fmap_cons, not_elem_of_cons. intros [Hm Hl].
  case_decide; [done|]. by rewrite IH.
Qed.

Lemma remove_first_NoDup id l :
  NoDup (modal_id <$> l) →
  NoDup (modal_id <$> ToolModalManager.remove_first id l)
  ∧ (id ∉ modal_id <$> ToolModalManager.remove_first id l)
  ∧ ToolModalManager.remove_first id l = filter (λ m, modal_id m ≠ id) l.
Proof.
  induction l as [|m l IH].
  { intros _. split; [constructor|]. split; [apply not_elem_of_nil|done]. }
  rewrite fmap_cons, NoDup_cons. intros [Hm Hl].
  cbn [ToolModalManager.remove_first]. rewrite (filter_cons _ m).
  destruct (decide (modal_id m = id)) as [Heq|Hne].
  - rewrite decide_False by (intros H; by apply H).
    subst id. split; [done|]. split; [done|].
    rewrite <- (remove_first_not_in (modal_id m) l) at 1 by done.
    by apply IH.
  - rewrite decide_True by done.
    destruct (IH Hl) as (Hnd & Hid & Hf). rewrite fmap_cons. split.
    + constructor; [|done]. rewrite Hf. intros Hin.
      apply Hm. apply list_elem_of_fmap in Hin as (m' & -> & Hin').
      apply (list_elem_of_filter (λ m0, modal_id m0 ≠ id)) in Hin' as [_ Hin'].
      by apply list_elem_of_fmap_2.
    + split; [|by rewrite Hf]. rewrite not_elem_of_cons. split; [congruence|done].
Qed.

(** When no two windows of the page have the same id, [createModal]
    leaves it so: the window of the given id there was is gone, the new
    one is the only one of that id and is where the call says, and the
    windows of other ids stay as they are, in order.  So opening the
    statistics twice leaves one statistics window. *)
Theorem createModal_keeps_ids_apart :
  (∀ id title content p,
     NoDup (modal_id <$> modals p) →
     let new := mkModal id title content false 0 in
     ∃ n, ToolModalManager.createModal id title content p
          = (Normal n,
             with_modals (filter (λ m, modal_id m ≠ id) (modals p) ++ [new]) p)
          ∧ (filter (λ m, modal_id m ≠ id) (modals p) ++ [new]) !! n = Some new
          ∧ NoDup (modal_id <$> filter (λ m, modal_id m ≠ id) (modals p) ++ [new]))
  ∧ (∀ p,
       NoDup (modal_id <$> modals p) →
       let p1 := exec_page viewStats p in
       let p2 := exec_page viewStats p1 in
       NoDup (modal_id <$> modals p2)
       ∧ filter (λ m, modal_id m = "statsModal") (modals p2) = [stats_modal p1]
       ∧ filter (λ m, modal_id m ≠ "statsModal") (modals p2)
         = filter (λ m, modal_id m ≠ "statsModal") (modals p)).
Proof.
  assert (∀ id l new,
            NoDup (modal_id <$> l) → modal_id new = id →
            NoDup (modal_id <$> filter (λ m, modal_id m ≠ id) l ++ [new]))
    as Hnd.
  { intros id l new Hl Hnew.
    destruct (remove_first_NoDup id l Hl) as (Hn & Hid & Hf).
    rewrite <- Hf, fmap_app. apply NoDup_app. split; [done|]. split.
    - intros x Hx. cbn. rewrite list_elem_of_singleton, Hnew. by intros ->.
    - apply NoDup_singleton. }
  split.
  - intros id title content p Hp new. subst new.
    destruct (remove_first_NoDup id (modals p) Hp) as (_ & _ & Hf).
    eexists. rewrite createModal_run, Hf. split; [done|]. split.
    + by rewrite list_lookup_middle.
    + by apply Hnd.
  - intros p Hp p1 p2. subst p1 p2. unfold exec_page.
    rewrite !viewStats_run. cbn [snd].
    set (p1 := viewed p).
    assert (modals p1
            = filter (λ m, modal_id m ≠ "statsModal") (modals p)
              ++ [stats_modal p]) as H1.
    { subst p1. unfold viewed. cbn [modals with_bodyOverflow with_modals].
      by destruct (remove_first_NoDup "statsModal" (modals p) Hp) as (_ & _ & ->). }
    assert (NoDup (modal_id <$> modals p1)) as Hp1
      by (rewrite H1; by apply Hnd).
    assert (modals (viewed p1)
            = filter (λ m, modal_id m ≠ "statsModal") (modals p1)
              ++ [stats_modal p1]) as H2.
    { unfold viewed. cbn [modals with_bodyOverflow with_modals].
      by destruct (remove_first_NoDup "statsModal" (modals p1) Hp1) as (_ & _ & ->). }
    assert (∀ l m, modal_id m = "statsModal" →
              filter (λ m, modal_id m ≠ "statsModal")
                (filter (λ m, modal_id m ≠ "statsModal") l ++ [m])
              = filter (λ m, modal_id m ≠ "statsModal") l
              ∧ filter (λ m, modal_id m = "statsModal")
                  (filter (λ m, modal_id m ≠ "statsModal") l ++ [m])
                = [m]) as Hfilter.
    { intros l m Hm. rewrite !filter_app.
      rewrite (filter_cons _ m), (filter_cons (λ m, modal_id m = _) m), !filter_nil.
      rewrite decide_False by (intros H; by apply H).
      rewrite decide_True by done. rewrite app_nil_r. split.
      - apply list_filter_filter_l. tauto.
      - rewrite list_filter_filter.
        induction l as [|m0 l IH]; [done|].
        rewrite filter_cons_False; [exact IH|]. tauto. }
    rewrite H2. split; [by apply Hnd|].
    destruct (Hfilter (modals p) (stats_modal p) eq_refl) as [H3 _].
    rewrite <- H1 in H3.
    destruct (Hfilter (modals p1) (stats_modal p1) eq_refl) as [H4 H5].
    split; [exact H5|]. by rewrite H4.
Qed.

Lemma createModal_keeps_ids_apart_witness :
  let p1 := exec_page viewStats sample_theme_page in
  let p2 := exec_page viewStats p1 in
  NoDup (modal_id <$> modals p2)
  ∧ filter (λ m, modal_id m = "statsModal") (modals p2) = [stats_modal p1]
  ∧ filter (λ m, modal_id m ≠ "statsModal") (modals p2)
    = filter (λ m, modal_id m ≠ "statsModal") (modals sample_theme_page).
Proof.
  apply (proj2 createModal_keeps_ids_apart sample_theme_page).
  constructor.
Defined.

(** ** Closing a window *)

Lemma hide_first_None id l :
  ToolModalManager.hide_first id l = None ↔ id ∉ modal_id <$> l.
Proof.
  induction l as [|m l IH]; cbn [ToolModalManager.hide_first].
  - split; [intros _; apply not_elem_of_nil|done].
  - rewrite fmap_cons, not_elem_of_cons. case_decide as Hm.
    + split; [done|]. intros [H _]. by destruct H.
    + rewrite fmap_None, IH. split; [intros H; split; [congruence|done]|tauto].
Qed.

Lemma hide_first_middle id l1 m l2 :
  id ∉ modal_id <$> l1 → modal_id m = id →
  ToolModalManager.hide_first id (l1 ++ m :: l2)
  = Some (l1 ++ mkModal (modal_id m) (modal_title m) (modal_content m) false
                  (outsideClickListeners m) :: l2).
Proof.
  intros Hl1 Hm. induction l1 as [|m1 l1 IH];
    cbn [ToolModalManager.hide_first List.app].
  - by rewrite decide_True.
  - rewrite fmap_cons, not_elem_of_cons in Hl1. destruct Hl1 as [H1 Hl1].
    rewrite decide_False by congruence. by rewrite IH.
Qed.

(** [hideModal] of an id no window has leaves the page as it is.  Of an
    id some window has, it takes the class [show] off the first window of
    that id, touches no other window, and sets the [overflow] of the body
    back to empty, whether another window is still shown or not.  A
    window opened by [viewStats] is no longer shown after
    [hideModal('statsModal')]. *)
Theorem hideModal_hides_the_first :
  (∀ id p, id ∉ modal_id <$> modals p →
           ToolModalManager.hideModal id p = (Normal (), p))
  ∧ (∀ id p l1 m l2,
       modals p = l1 ++ m :: l2 →
       id ∉ modal_id <$> l1 → modal_id m = id →
       ToolModalManager.hideModal id p
       = (Normal (),
          with_bodyOverflow ""
            (with_modals
               (l1 ++ mkModal (modal_id m) (modal_title m) (modal_content m)
                        false (outsideClickListeners m) :: l2) p)))
  ∧ (∀ p,
       "statsModal" ∉ modal_id <$> modals p →
       let p' := exec_page (ToolModalManager.hideModal "statsModal")
                   (exec_page viewStats p) in
       show <$> last (modals p') = Some false
       ∧ modal_content <$> last (modals p')
         = modal_content <$> last (modals (exec_page viewStats p))
       ∧ bodyOverflow p' = "").
Proof.
  assert (∀ id p l1 m l2,
       modals p = l1 ++ m :: l2 →
       id ∉ modal_id <$> l1 → modal_id m = id →
       ToolModalManager.hideModal id p
       = (Normal (),
          with_bodyOverflow ""
            (with_modals
               (l1 ++ mkModal (modal_id m) (modal_title m) (modal_content m)
                        false (outsideClickListeners m) :: l2) p))) as Hmid.
  { intros id p l1 m l2 Hp Hl1 Hm. unfold ToolModalManager.hideModal.
    unfold_page. by rewrite Hp, hide_first_middle. }
  split; [|split; [exact Hmid|]].
  - intros id p Hid. unfold ToolModalManager.hideModal. unfold_page.
    by rewrite (proj2 (hide_first_None id (modals p)) Hid).
  - intros p Hp p'. subst p'.
    assert (exec_page viewStats p = viewed p) as ->
      by (unfold exec_page; by rewrite viewStats_run).
    unfold exec_page.
    assert (modals (viewed p) = modals p ++ [stats_modal p]) as Hv.
    { unfold viewed. cbn [modals with_bodyOverflow with_modals].
      by rewrite remove_first_not_in. }
    rewrite (Hmid "statsModal" (viewed p) (modals p) (stats_modal p) [] Hv Hp eq_refl).
    cbn [snd modals bodyOverflow with_bodyOverflow with_modals].
    rewrite Hv, !last_snoc. done.
Qed.

Lemma hideModal_hides_the_first_witness :
  ToolModalManager.hideModal "cryptoModal" three_windows_page
  = (Normal (), three_windows_page)
  ∧ ToolModalManager.hideModal "statsModal" three_windows_page
    = (Normal (),
       with_bodyOverflow ""
         (with_modals
            [window "toolModal";
             {| modal_id := "statsModal"; modal_title := "statsModal";
                modal_content := Html ""; show := false;
                outsideClickListeners := 1 |};
             window "paymentModal"]
            three_windows_page))
  ∧ (let opened := exec_page viewStats
                     (with_modals [window "toolModal"] six_records_page) in
     let p' := exec_page (ToolModalManager.hideModal "statsModal") opened in
     show <$> last (modals opened) = Some true
     ∧ show <$> last (modals p') = Some false
     ∧ modal_content <$> last (modals p') = modal_content <$> last (modals opened)
     ∧ show <$> head (modals p') = Some true
     ∧ bodyOverflow p' = "").
Proof.
  split; [|split].
  - apply (proj1 hideModal_hides_the_first "cryptoModal" three_windows_page).
    change ("cryptoModal" ∉ ["toolModal"; "statsModal"; "paymentModal"]).
    intros H.
    do 3 (apply elem_of_cons in H as [H|H]; [discriminate H|]).
    exact (not_elem_of_nil _ H).
  - apply (proj1 (proj2 hideModal_hides_the_first) "statsModal"
             three_windows_page [window "toolModal"] (window "statsModal")
             [window "paymentModal"]).
    + reflexivity.
    + intros H. apply list_elem_of_singleton in H. discriminate H.
    + reflexivity.
  - intros opened p'.
    split; [vm_compute; reflexivity|].
    assert ("statsModal" ∉ modal_id <$> modals (with_modals [window "toolModal"] six_records_page))
      as Hid.
    { intros H. apply list_elem_of_singleton in H. discriminate H. }
    destruct (proj2 (proj2 hideModal_hides_the_first) _ Hid) as (H1 & H2 & H3).
    split; [exact H1|]. split; [exact H2|]. split; [vm_compute; reflexivity|exact H3].
Defined.
